(** * Gemini connector: reference extraction and attachment pipeline

    A shallow embedding of [src/main.ts].  JavaScript strings are
    sequences of UTF-16 code units; a code unit is a number ([N]).
    Functions of the Node.js runtime that the connector calls
    ([path.extname], [String.prototype.trim], the regular expressions)
    are written out; the ones that rest on tables of the runtime or
    reach outside the process (the lower-casing of characters outside
    ASCII, URL parsing, the home and working directories, the file
    system, the network, the model client) are fields of a [Host]
    record, and the world they act on is threaded through a
    state-and-exception monad. *)

From Stdlib Require Import String Ascii.
From Stdlib Require Import List NArith ZArith Bool Lia Arith.
Import ListNotations.

Set Implicit Arguments.

(** ** Strings *)

Definition char := N.
Definition jsstring := list char.

(** [js] turns an ASCII literal into the JavaScript string of its code units. *)
Definition js (s : string) : jsstring :=
  map N_of_ascii (list_ascii_of_string s).

Fixpoint str_eqb (a b : jsstring) : bool :=
  match a, b with
  | [], [] => true
  | x :: a', y :: b' => N.eqb x y && str_eqb a' b'
  | _, _ => false
  end.

Definition isEmpty (s : jsstring) : bool :=
  match s with [] => true | _ => false end.

Section ListScan.
Variable A : Type.
Variable p : A -> bool.

Fixpoint takeWhile (l : list A) : list A :=
  match l with
  | [] => []
  | x :: l' => if p x then x :: takeWhile l' else []
  end.

Fixpoint dropWhile (l : list A) : list A :=
  match l with
  | [] => []
  | x :: l' => if p x then dropWhile l' else l
  end.

Definition headSat (l : list A) : bool :=
  match l with
  | [] => false
  | x :: _ => p x
  end.

(** Removes the longest suffix whose elements all satisfy [p]. *)
Fixpoint dropWhileEnd (l : list A) : list A :=
  match l with
  | [] => []
  | x :: l' =>
      match dropWhileEnd l' with
      | [] => if p x then [] else [x]
      | t => x :: t
      end
  end.
End ListScan.

Module Unicode.
Local Open Scope N_scope.

(** WhiteSpace and LineTerminator of ECMAScript: what [trim] removes
    and what [\s] matches. *)
Definition isWhitespace (c : char) : bool :=
  ((9 <=? c) && (c <=? 13)) || (c =? 32) || (c =? 160) || (c =? 5760)
  || ((8192 <=? c) && (c <=? 8202)) || (c =? 8232) || (c =? 8233)
  || (c =? 8239) || (c =? 8287) || (c =? 12288) || (c =? 65279).

Definition isUpper (c : char) : bool := (65 <=? c) && (c <=? 90).
Definition isLower (c : char) : bool := (97 <=? c) && (c <=? 122).
Definition isDigit (c : char) : bool := (48 <=? c) && (c <=? 57).

(** [\w] without the [u] flag: [A-Za-z0-9_]. *)
Definition isWord (c : char) : bool :=
  isUpper c || isLower c || isDigit c || (c =? 95).

Definition isAscii (c : char) : bool := c <? 128.

(** Lower-casing of one ASCII code unit: [A-Z] goes to [a-z], whatever
    stands around it. *)
Definition lowerUnit (c : char) : char := if isUpper c then c + 32 else c.

(** Canonicalize of a case-insensitive regular expression without the
    [u] flag, on the ASCII range: the upper-case letter. *)
Definition canonicalize (c : char) : char := if isLower c then c - 32 else c.

Definition CHAR_DOT : char := 46.
Definition CHAR_FORWARD_SLASH : char := 47.
Definition CHAR_QUESTION : char := 63.
Definition CHAR_HASH : char := 35.
Definition CHAR_SEMICOLON : char := 59.
Definition CHAR_TILDE : char := 126.
Definition CHAR_DQUOTE : char := 34.
End Unicode.
Import Unicode.

(** [value.trim()] *)
Definition trim (s : jsstring) : jsstring :=
  dropWhileEnd isWhitespace (dropWhile isWhitespace s).

Fixpoint startsWith (s prefix : jsstring) : bool :=
  match prefix, s with
  | [], _ => true
  | x :: prefix', y :: s' => N.eqb x y && startsWith s' prefix'
  | _ :: _, [] => false
  end.

(** [s.split(sep)[0]] for a one-character separator: the text before
    its first occurrence, the whole string when there is none. *)
Definition beforeFirst (sep : char) (s : jsstring) : jsstring :=
  takeWhile (fun c => negb (N.eqb c sep)) s.

(** ** Token normalizer: [stripWrappingCharacters] *)

(** The character class of the leading pattern: the opening brackets
    [<], [(], [{], [[], the apostrophe and the double quote. *)
Definition isOpener (c : char) : bool :=
  existsb (N.eqb c) (js "<({['" ++ [CHAR_DQUOTE]).

(** The character class of the trailing pattern: the closing brackets,
    the apostrophe, the double quote, and [.], [,], [;], [!]. *)
Definition isCloser (c : char) : bool :=
  existsb (N.eqb c) (js ">)}]'" ++ [CHAR_DQUOTE] ++ js ".,;!").

(** The test of the loop: the trailing pattern, a run of closers
    before the end of the string, matches when the last character is a
    closer. *)
Definition endsWithCloser (candidate : jsstring) : bool :=
  match rev candidate with
  | [] => false
  | c :: _ => isCloser c
  end.

(** [while (candidate && test) candidate = candidate.slice(0, -1)].
    Each turn cuts one character, so the length of the string is fuel
    enough. *)
Fixpoint cutClosers (fuel : nat) (candidate : jsstring) : jsstring :=
  match fuel with
  | O => candidate
  | S fuel' =>
      if negb (isEmpty candidate) && endsWithCloser candidate
      then cutClosers fuel' (removelast candidate)
      else candidate
  end.

(** [value.trim()] without its leading run of openers, then the loop. *)
Definition stripWrappingCharacters (value : jsstring) : jsstring :=
  let candidate := dropWhile isOpener (trim value) in
  cutClosers (length candidate) candidate.

(** ** Exceptions *)

(** A thrown value, as far as [mapErrorToCompletion] looks at it: an
    [Error] with its message; any other value with the text
    [JSON.stringify] gives for it; or a value on which [JSON.stringify]
    itself throws (a BigInt, an object that refers to itself, a
    [toJSON] that throws), with what it throws. *)
Inductive Thrown : Type :=
| ErrorObject (message : jsstring)
| OtherValue (json : jsstring)
| Unserializable (raised : Thrown).

Inductive Result (A : Type) : Type :=
| Ok (value : A)
| Throw (error : Thrown).
Arguments Ok {A} value.
Arguments Throw {A} error.

Definition bindR {A B : Type} (r : Result A) (k : A -> Result B) : Result B :=
  match r with
  | Ok a => k a
  | Throw e => Throw e
  end.

(** ** What the connector asks of its host *)

(** The part of a WHATWG [URL] object that the connector and
    [fileURLToPath] read. *)
Record URL := mkURL {
  protocol : jsstring;
  hostname : jsstring;
  pathname : jsstring
}.

Record Response := mkResponse {
  ok : bool;
  status : N;
  url : jsstring;
  contentType : option jsstring   (* headers.get('content-type') *)
}.

Inductive LogEntry : Type :=
| WarnFetchFailed (reference : jsstring) (status : N)
| WarnUnableToLoad (reference : jsstring) (error : Thrown)
| ErrorInMain (error : Thrown).

Inductive Part : Type :=
| TextPart (text : jsstring)
| InlineData (mimeType : jsstring) (data : jsstring).

Inductive JsValue : Type :=
| JsString (s : jsstring)
| JsNumber (z : Z)
| JsBool (b : bool)
| JsNull.

Definition Bytes := list N.

(** The runtime and the collaborators.  [W] is the state of the world
    outside the connector; a call that can fail returns a [Result]:
    [os.homedir()] throws when the home directory cannot be found and
    [path.resolve] when the working directory is gone.

    [lowerNonAscii whole i] is the part of [String.prototype.toLowerCase]
    that rests on the Unicode tables: the lower-case image of the code
    unit outside ASCII at index [i] of the string [whole].  It may
    depend on the characters around it (a capital sigma at the end of
    a word) and may be longer than one unit; for a surrogate pair it is
    the image of the pair at its first unit and nothing at the second. *)
Record Host (W AI Chat : Type) := mkHost {
  lowerNonAscii : jsstring -> nat -> jsstring;
  newURL : jsstring -> Result URL;
  fileURLToPath : URL -> Result jsstring;
  homedir : Result jsstring;
  pathJoin : jsstring -> jsstring -> jsstring;
  pathIsAbsolute : jsstring -> bool;
  pathResolve : jsstring -> Result jsstring;
  base64 : Bytes -> jsstring;
  fetch : jsstring -> W -> Result Response * W;
  arrayBuffer : Response -> W -> Result Bytes * W;
  readFile : jsstring -> W -> Result Bytes * W;
  console : LogEntry -> W -> W;
  newGoogleGenAI : option jsstring -> W -> Result AI * W;
  chatsCreate : AI -> jsstring -> option (list (jsstring * JsValue)) -> W -> Result Chat * W;
  sendMessage : Chat -> list Part -> W -> Result (option jsstring) * W;
  countTokens : AI -> jsstring -> list Part -> W -> Result (option N) * W
}.

(** ** Type classifier: [path.extname] (POSIX), [getExtension], the table *)

(** The locals of Node's [posix.extname]; [-1] stands for not found. *)
Record ExtState := mkExtState {
  startDot : Z;
  startPart : Z;
  endPos : Z;
  matchedSlash : bool;
  preDotState : Z
}.

Definition extInit : ExtState := mkExtState (-1) 0 (-1) true 0.

(** The loop [for (let i = path.length - 1; i >= 0; --i)], run over the
    characters from the last one down; [i] is the index of the head. *)
Fixpoint extnameLoop (rpath : jsstring) (i : Z) (st : ExtState) : ExtState :=
  match rpath with
  | [] => st
  | code :: rest =>
      if N.eqb code CHAR_FORWARD_SLASH then
        if negb (matchedSlash st)
        then mkExtState (startDot st) (i + 1) (endPos st) (matchedSlash st) (preDotState st)
        else extnameLoop rest (i - 1) st
      else
        let st1 :=
          if Z.eqb (endPos st) (-1)
          then mkExtState (startDot st) (startPart st) (i + 1) false (preDotState st)
          else st in
        let st2 :=
          if N.eqb code CHAR_DOT then
            if Z.eqb (startDot st1) (-1)
            then mkExtState i (startPart st1) (endPos st1) (matchedSlash st1) (preDotState st1)
            else if negb (Z.eqb (preDotState st1) 1)
                 then mkExtState (startDot st1) (startPart st1) (endPos st1) (matchedSlash st1) 1
                 else st1
          else if negb (Z.eqb (startDot st1) (-1))
               then mkExtState (startDot st1) (startPart st1) (endPos st1) (matchedSlash st1) (-1)
               else st1 in
        extnameLoop rest (i - 1) st2
  end.

(** [path.slice(a, b)] for [0 <= a <= b]. *)
Definition slice (a b : Z) (s : jsstring) : jsstring :=
  firstn (Z.to_nat (b - a)) (skipn (Z.to_nat a) s).

Definition extname (path : jsstring) : jsstring :=
  let st := extnameLoop (rev path) (Z.of_nat (length path) - 1) extInit in
  if Z.eqb (startDot st) (-1)
     || Z.eqb (endPos st) (-1)
     || Z.eqb (preDotState st) 0
     || (Z.eqb (preDotState st) 1
         && Z.eqb (startDot st) (endPos st - 1)
         && Z.eqb (startDot st) (startPart st + 1))
  then []
  else slice (startDot st) (endPos st) path.

Section Classifier.
Context {W AI Chat : Type}.
Variable h : Host W AI Chat.

(** [String.prototype.toLowerCase]: the images of the code units, one
    after the other.  An ASCII unit has the image [lowerUnit] gives
    it; the image of any other unit is the runtime's. *)
Fixpoint lowerFrom (whole : jsstring) (i : nat) (rest : jsstring) : jsstring :=
  match rest with
  | [] => []
  | c :: rest' =>
      (if isAscii c then [lowerUnit c] else lowerNonAscii h whole i)
      ++ lowerFrom whole (S i) rest'
  end.

Definition toLowerCase (s : jsstring) : jsstring := lowerFrom s 0 s.

(** [getExtension]: [None] is JavaScript's [null]. *)
Definition getExtension (input : jsstring) : option jsstring :=
  let base := beforeFirst CHAR_HASH (beforeFirst CHAR_QUESTION input) in
  let ext := extname base in
  if isEmpty ext then None else Some (toLowerCase ext).
End Classifier.

Definition SUPPORTED_FILE_TYPES : list (jsstring * jsstring) :=
  [ (js ".pdf", js "application/pdf");
    (js ".png", js "image/png");
    (js ".jpg", js "image/jpeg");
    (js ".jpeg", js "image/jpeg");
    (js ".gif", js "image/gif");
    (js ".bmp", js "image/bmp");
    (js ".webp", js "image/webp");
    (js ".svg", js "image/svg+xml");
    (js ".heic", js "image/heic");
    (js ".heif", js "image/heif") ].

(** [SUPPORTED_FILE_TYPES[ext]] for a key that opens with a dot, as
    every extension does; [None] is [undefined].  The properties the
    object literal inherits have names without a dot, so such a key
    finds an own property or nothing. *)
Fixpoint lookup (table : list (jsstring * jsstring)) (key : jsstring) : option jsstring :=
  match table with
  | [] => None
  | (k, v) :: table' => if str_eqb k key then Some v else lookup table' key
  end.

(** [ext && SUPPORTED_FILE_TYPES[ext]] read as a condition. *)
Definition supportedExt (ext : option jsstring) : bool :=
  match ext with
  | Some e => match lookup SUPPORTED_FILE_TYPES e with Some _ => true | None => false end
  | None => false
  end.

(** [guessMimeType], for a fallback extension that opens with a dot. *)
Definition guessMimeType {W AI Chat : Type} (h : Host W AI Chat)
           (reference fallbackExt : jsstring) : jsstring :=
  match getExtension h reference with
  | Some ext =>
      match lookup SUPPORTED_FILE_TYPES ext with
      | Some mime => mime
      | None =>
          match lookup SUPPORTED_FILE_TYPES fallbackExt with
          | Some mime => mime
          | None => js "application/octet-stream"
          end
      end
  | None =>
      match lookup SUPPORTED_FILE_TYPES fallbackExt with
      | Some mime => mime
      | None => js "application/octet-stream"
      end
  end.

(** ** Reference scanner *)

Definition ciStartsWith (s prefix : jsstring) : bool :=
  startsWith (map canonicalize s) (map canonicalize prefix).

(** The class of the link body: anything but white space, [<], [>],
    the double quote, the apostrophe and [)]. *)
Definition isLinkChar (c : char) : bool :=
  negb (isWhitespace c || existsb (N.eqb c) (js "<>')" ++ [CHAR_DQUOTE])).

(** REMOTE_LINK_REGEX anchored at the head of [s], without its leading
    word boundary: a scheme, case-insensitively, then one or more link
    characters, greedily.  The result is the matched text. *)
Definition matchLinkAt (s : jsstring) : option jsstring :=
  let scheme :=
    if ciStartsWith s (js "https://") then Some 8%nat
    else if ciStartsWith s (js "http://") then Some 7%nat
    else if ciStartsWith s (js "file://") then Some 7%nat
    else None in
  match scheme with
  | Some k =>
      let body := takeWhile isLinkChar (skipn k s) in
      if isEmpty body then None else Some (firstn k s ++ body)
  | None => None
  end.

(** The assertion [\b] between the previous character (if any) and [c]. *)
Definition wordBoundary (prev : option char) (c : char) : bool :=
  xorb (match prev with Some d => isWord d | None => false end) (isWord c).

(** [text.match(REMOTE_LINK_REGEX) ?? []]: all matches, left to right,
    the search resuming after each match.  [skip] counts the characters
    of the current match that are still to be passed. *)
Fixpoint scanLinks (skip : nat) (prev : option char) (s : jsstring) : list jsstring :=
  match s with
  | [] => []
  | c :: s' =>
      match skip with
      | S k => scanLinks k (Some c) s'
      | O =>
          if wordBoundary prev c then
            match matchLinkAt s with
            | Some m => m :: scanLinks (length m - 1) (Some c) s'
            | None => scanLinks 0 (Some c) s'
            end
          else scanLinks 0 (Some c) s'
      end
  end.

Definition remoteMatches (text : jsstring) : list jsstring :=
  scanLinks 0 None text.

(** [text.split(/\s+/)]: [cur] is the token being read, reversed, and
    [inRun] says that the previous character was white space. *)
Fixpoint splitLoop (cur : jsstring) (inRun : bool) (s : jsstring) : list jsstring :=
  match s with
  | [] => [rev cur]
  | c :: s' =>
      if isWhitespace c then
        if inRun then splitLoop cur true s'
        else rev cur :: splitLoop [] true s'
      else splitLoop (c :: cur) false s'
  end.

Definition splitWhitespace (text : jsstring) : list jsstring :=
  splitLoop [] false text.

(** [references.add(candidate)] on a [Set] that keeps insertion order. *)
Definition setAdd (x : jsstring) (refs : list jsstring) : list jsstring :=
  if existsb (str_eqb x) refs then refs else refs ++ [x].

(** ** The state-and-exception monad *)

Definition M (W A : Type) : Type := W -> Result A * W.

Definition ret {W A : Type} (a : A) : M W A := fun w => (Ok a, w).

Definition throw {W A : Type} (e : Thrown) : M W A := fun w => (Throw e, w).

Definition bind {W A B : Type} (m : M W A) (k : A -> M W B) : M W B :=
  fun w =>
    match m w with
    | (Ok a, w') => k a w'
    | (Throw e, w') => (Throw e, w')
    end.

Definition tryCatch {W A : Type} (body : M W A) (handler : Thrown -> M W A) : M W A :=
  fun w =>
    match body w with
    | (Ok a, w') => (Ok a, w')
    | (Throw e, w') => handler e w'
    end.

Definition liftR {W A : Type} (r : Result A) : M W A := fun w => (r, w).

Definition effect {W : Type} (f : W -> W) : M W unit := fun w => (Ok tt, f w).

Declare Scope conn_scope.
Delimit Scope conn_scope with conn.
Notation "x <- m ;; k" := (bind m (fun x => k))
  (at level 61, m at next level, right associativity) : conn_scope.
Notation "m ;;; k" := (bind m (fun _ => k))
  (at level 61, right associativity) : conn_scope.
Local Open Scope conn_scope.

(** ** The connector *)

Inductive Outcome : Type :=
| Completion (Content : jsstring) (TokenUsage : option N)
| ErrorCompletion (Error : jsstring).

Record ConnectorResponse := mkConnectorResponse {
  Completions : list Outcome;
  ModelType : option jsstring
}.

(** [JSON.stringify] can throw, and then so does this function. *)
Definition mapErrorToCompletion (error : Thrown) : Result Outcome :=
  match error with
  | ErrorObject message => Ok (ErrorCompletion message)
  | OtherValue json => Ok (ErrorCompletion json)
  | Unserializable raised => Throw raised
  end.

Definition API_KEY : jsstring := js "API_KEY".

(** [settings?.[API_KEY]], [undefined] being [None]. *)
Fixpoint getProperty (obj : list (jsstring * JsValue)) (key : jsstring) : option JsValue :=
  match obj with
  | [] => None
  | (k, v) :: obj' => if str_eqb k key then Some v else getProperty obj' key
  end.

Section Connector.
Context {W AI Chat : Type}.
Variable h : Host W AI Chat.

Definition isHttpUrl (value : jsstring) : bool :=
  match newURL h value with
  | Ok url => str_eqb (protocol url) (js "http:") || str_eqb (protocol url) (js "https:")
  | Throw _ => false
  end.

Definition isFileUrl (value : jsstring) : bool :=
  match newURL h value with
  | Ok url => str_eqb (protocol url) (js "file:")
  | Throw _ => false
  end.

Definition resolveLocalPath (reference : jsstring) : Result jsstring :=
  if isFileUrl reference then bindR (newURL h reference) (fileURLToPath h)
  else if startsWith reference [CHAR_TILDE]
       then bindR (homedir h) (fun home => Ok (pathJoin h home (skipn 1 reference)))
       else if pathIsAbsolute h reference then Ok reference else pathResolve h reference.

(** The argument of [getExtension] in [extractFileReferences] and in
    [loadInlineDataPart]:
    [c.startsWith('file://') ? fileURLToPath(new URL(c)) : c]. *)
Definition extensionSource (candidate : jsstring) : Result jsstring :=
  if startsWith candidate (js "file://")
  then bindR (newURL h candidate) (fileURLToPath h)
  else Ok candidate.

(** The first loop of [extractFileReferences], over the link matches. *)
Fixpoint remotePass (matches : list jsstring) (references : list jsstring)
  : Result (list jsstring) :=
  match matches with
  | [] => Ok references
  | rawMatch :: rest =>
      let candidate := stripWrappingCharacters rawMatch in
      bindR (extensionSource candidate) (fun source =>
        let ext := getExtension h source in
        remotePass rest
          (if supportedExt ext then setAdd candidate references else references))
  end.

(** Its second loop, over the white-space separated tokens. *)
Fixpoint tokenPass (tokens : list jsstring) (references : list jsstring)
  : list jsstring :=
  match tokens with
  | [] => references
  | rawToken :: rest =>
      let candidate := stripWrappingCharacters rawToken in
      if isEmpty candidate || isHttpUrl candidate || isFileUrl candidate
      then tokenPass rest references
      else
        let ext := getExtension h candidate in
        tokenPass rest
          (if supportedExt ext then setAdd candidate references else references)
  end.

Definition extractFileReferences (text : jsstring) : Result (list jsstring) :=
  bindR (remotePass (remoteMatches text) [])
        (fun references => Ok (tokenPass (splitWhitespace text) references)).

(** [headerMime && SUPPORTED_FILE_TYPES[ext] !== headerMime ? headerMime
    : SUPPORTED_FILE_TYPES[ext]], with [headerMime] the content type up
    to its first [;], trimmed. *)
Definition headerMime (response : Response) : option jsstring :=
  option_map (fun v => trim (beforeFirst CHAR_SEMICOLON v)) (contentType response).

Definition remoteMimeType (response : Response) (guess : jsstring) : jsstring :=
  match headerMime response with
  | Some m => if negb (isEmpty m) && negb (str_eqb guess m) then m else guess
  | None => guess
  end.

(** The body of the [try] block of [loadInlineDataPart]. *)
Definition loadGuarded (resolvedRef ext guess : jsstring) : M W (option Part) :=
  if isHttpUrl resolvedRef then
    response <- fetch h resolvedRef ;;
    if negb (ok response) then
      effect (console h (WarnFetchFailed resolvedRef (status response))) ;;;
      ret None
    else
      buffer <- arrayBuffer h response ;;
      ret (Some (InlineData (remoteMimeType response guess) (base64 h buffer)))
  else
    filePath <- liftR (resolveLocalPath resolvedRef) ;;
    data <- readFile h filePath ;;
    ret (Some (InlineData (guessMimeType h filePath ext) (base64 h data))).

Definition loadInlineDataPart (reference : jsstring) : M W (option Part) :=
  let resolvedRef := stripWrappingCharacters reference in
  source <- liftR (extensionSource resolvedRef) ;;
  match getExtension h source with
  | None => ret None
  | Some ext =>
      match lookup SUPPORTED_FILE_TYPES ext with
      | None => ret None
      | Some guess =>
          tryCatch (loadGuarded resolvedRef ext guess)
            (fun error =>
               effect (console h (WarnUnableToLoad resolvedRef error)) ;;;
               ret None)
      end
  end.

Section Builder.
(** The loader is a variable here, so that its calls can be counted. *)
Variable load : jsstring -> M W (option Part).

(** [for (const reference of references)] with its [inlineParts.push]. *)
Fixpoint loadLoop (references : list jsstring) (inlineParts : list Part)
  : M W (list Part) :=
  match references with
  | [] => ret inlineParts
  | reference :: rest =>
      part <- load reference ;;
      loadLoop rest
        (match part with
         | Some p => inlineParts ++ [p]
         | None => inlineParts
         end)
  end.

Definition buildMessagePartsWith (prompt : jsstring) : M W (list Part) :=
  references <- liftR (extractFileReferences prompt) ;;
  match references with
  | [] => ret [TextPart prompt]
  | _ :: _ =>
      inlineParts <- loadLoop references [] ;;
      ret (TextPart prompt :: inlineParts)
  end.
End Builder.

Definition buildMessageParts : jsstring -> M W (list Part) :=
  buildMessagePartsWith loadInlineDataPart.

(** The [try] block of one turn of the loop over the prompts. *)
Definition promptBody (ai : AI) (chat : Chat) (model prompt : jsstring) : M W Outcome :=
  messageParts <- buildMessageParts prompt ;;
  text <- sendMessage h chat messageParts ;;
  totalTokens <- countTokens h ai model messageParts ;;
  ret (Completion (match text with Some t => t | None => [] end) totalTokens).

(** [for (const prompt of prompts)] with [outputs.push] on both paths.
    What [mapErrorToCompletion] throws in the [catch] leaves the loop. *)
Fixpoint promptLoop (ai : AI) (chat : Chat) (model : jsstring)
         (prompts : list jsstring) (outputs : list Outcome) : M W (list Outcome) :=
  match prompts with
  | [] => ret outputs
  | prompt :: rest =>
      completion <- tryCatch (promptBody ai chat model prompt)
                      (fun error => liftR (mapErrorToCompletion error)) ;;
      promptLoop ai chat model rest (outputs ++ [completion])
  end.

(** What [main] does before the loop: the key, the client, the chat. *)
Definition setup (model : jsstring) (properties settings : list (jsstring * JsValue))
  : M W (AI * Chat) :=
  let apiKey :=
    match getProperty settings API_KEY with
    | Some (JsString raw) => if negb (isEmpty (trim raw)) then Some (trim raw) else None
    | _ => None
    end in
  ai <- newGoogleGenAI h apiKey ;;
  let chatConfig := match properties with [] => None | _ :: _ => Some properties end in
  chat <- chatsCreate h ai model chatConfig ;;
  ret (ai, chat).

(** The outer [try] block of [main]. *)
Definition mainBody (model : jsstring) (prompts : list jsstring)
           (properties settings : list (jsstring * JsValue)) : M W ConnectorResponse :=
  session <- setup model properties settings ;;
  outputs <- promptLoop (fst session) (snd session) model prompts [] ;;
  ret (mkConnectorResponse outputs None).

(** [main]: its [catch] logs the exception and answers with one
    error completion; it rejects when [mapErrorToCompletion] throws
    there. *)
Definition main (model : jsstring) (prompts : list jsstring)
           (properties settings : list (jsstring * JsValue)) : M W ConnectorResponse :=
  tryCatch (mainBody model prompts properties settings)
    (fun error =>
       effect (console h (ErrorInMain error)) ;;;
       completion <- liftR (mapErrorToCompletion error) ;;
       ret (mkConnectorResponse [completion] None)).
End Connector.

(** ** A small host to run the connector on

    It follows Node.js on the strings the examples below use: absolute
    [http], [https] and [file] URLs without port, credentials or percent
    escapes other than an encoded slash, POSIX paths, a file system and
    a web given as tables, and a model client that echoes. *)
Module Demo.

Record World := mkWorld {
  files : list (jsstring * Bytes);
  web : list (jsstring * (Response * Bytes));
  log : list LogEntry;
  reads : list jsstring;      (* the paths given to [readFile], in order *)
  fetches : list jsstring;    (* the URLs given to [fetch], in order *)
  sent : list (list Part)     (* the messages given to [sendMessage] *)
}.

Definition invalidURL : Thrown := ErrorObject (js "Invalid URL").

(** Forbidden host code points that can stand in the host of the
    URLs read here. *)
Definition isForbiddenHostChar (c : char) : bool :=
  isWhitespace c || existsb (N.eqb c) (js "<>[\]^|%").

Definition isHostEnd (c : char) : bool :=
  existsb (N.eqb c) (js "/?#").

Definition parseAfterScheme (scheme rest : jsstring) : Result URL :=
  let host := takeWhile (fun c => negb (isHostEnd c)) rest in
  let path := beforeFirst CHAR_HASH (beforeFirst CHAR_QUESTION (skipn (length host) rest)) in
  let isFile := str_eqb scheme (js "file:") in
  if existsb isForbiddenHostChar host || (negb isFile && isEmpty host)
  then Throw invalidURL
  else Ok (mkURL scheme
             (if isFile && str_eqb host (js "localhost") then [] else host)
             (if isEmpty path then js "/" else path)).

Definition newURL (s : jsstring) : Result URL :=
  if startsWith s (js "https://") then parseAfterScheme (js "https:") (skipn 8 s)
  else if startsWith s (js "http://") then parseAfterScheme (js "http:") (skipn 7 s)
  else if startsWith s (js "file://") then parseAfterScheme (js "file:") (skipn 7 s)
  else Throw invalidURL.

Fixpoint hasEncodedSlash (s : jsstring) : bool :=
  match s with
  | [] => false
  | c :: s' =>
      (startsWith s (js "%2f") || startsWith s (js "%2F")) || hasEncodedSlash s'
  end.

(** [fileURLToPath] on POSIX. *)
Definition fileURLToPath (url : URL) : Result jsstring :=
  if negb (isEmpty (hostname url))
  then Throw (ErrorObject (js "File URL host must be 'localhost' or empty on linux"))
  else if hasEncodedSlash (pathname url)
       then Throw (ErrorObject (js "File URL path must not include encoded / characters"))
       else Ok (pathname url).

Fixpoint find (key : jsstring) {A : Type} (table : list (jsstring * A)) : option A :=
  match table with
  | [] => None
  | (k, v) :: table' => if str_eqb k key then Some v else find key table'
  end.

Definition fetch (url : jsstring) (w : World) : Result Response * World :=
  let w' := mkWorld (files w) (web w) (log w) (reads w) (fetches w ++ [url]) (sent w) in
  match find url (web w) with
  | Some (response, _) => (Ok response, w')
  | None => (Throw (ErrorObject (js "fetch failed")), w')
  end.

Definition arrayBuffer (response : Response) (w : World) : Result Bytes * World :=
  match find (url response) (web w) with
  | Some (_, body) => (Ok body, w)
  | None => (Throw (ErrorObject (js "body unavailable")), w)
  end.

Definition readFile (path : jsstring) (w : World) : Result Bytes * World :=
  let w' := mkWorld (files w) (web w) (log w) (reads w ++ [path]) (fetches w) (sent w) in
  match find path (files w) with
  | Some data => (Ok data, w')
  | None => (Throw (ErrorObject (js "ENOENT: no such file or directory")), w')
  end.

Definition console (entry : LogEntry) (w : World) : World :=
  mkWorld (files w) (web w) (log w ++ [entry]) (reads w) (fetches w) (sent w).

(** The client: it wants a key, and a model with a name. *)
Definition newGoogleGenAI (apiKey : option jsstring) (w : World)
  : Result jsstring * World :=
  match apiKey with
  | Some key => (Ok key, w)
  | None => (Throw (ErrorObject (js "API key must be set")), w)
  end.

Definition chatsCreate (ai model : jsstring) (config : option (list (jsstring * JsValue)))
           (w : World) : Result jsstring * World :=
  if isEmpty model then (Throw (ErrorObject (js "model is required")), w)
  else (Ok model, w).

(** It answers with the number of parts it was sent, as a digit,
    fails on the message whose text is [boom], and on the one whose
    text is [bigint] it throws a BigInt, which [JSON.stringify] cannot
    serialize. *)
Definition sendMessage (chat : jsstring) (parts : list Part) (w : World)
  : Result (option jsstring) * World :=
  let w' := mkWorld (files w) (web w) (log w) (reads w) (fetches w) (sent w ++ [parts]) in
  match parts with
  | TextPart t :: _ =>
      if str_eqb t (js "boom") then (Throw (ErrorObject (js "model error")), w')
      else if str_eqb t (js "bigint")
      then (Throw (Unserializable (ErrorObject (js "Do not know how to serialize a BigInt"))), w')
      else (Ok (Some (js "parts: " ++ [48 + N.of_nat (length parts)]%N)), w')
  | _ => (Ok None, w')
  end.

Definition countTokens (ai model : jsstring) (parts : list Part) (w : World)
  : Result (option N) * World :=
  (Ok (Some (N.of_nat (length parts))), w).

(** [Buffer.toString('base64')] *)
Definition base64Alphabet : jsstring :=
  js "ABCDEFGHIJKLMNOPQRSTUVWXYZabcdefghijklmnopqrstuvwxyz0123456789+/".

Definition base64Digit (n : N) : char := nth (N.to_nat n) base64Alphabet 61%N.

Fixpoint base64 (bytes : Bytes) : jsstring :=
  match bytes with
  | [] => []
  | [a] =>
      [base64Digit (a / 4); base64Digit ((a mod 4) * 16); 61; 61]%N
  | [a; b] =>
      [base64Digit (a / 4); base64Digit ((a mod 4) * 16 + b / 16);
       base64Digit ((b mod 16) * 4); 61]%N
  | a :: b :: c :: rest =>
      [base64Digit (a / 4); base64Digit ((a mod 4) * 16 + b / 16);
       base64Digit ((b mod 16) * 4 + c / 64); base64Digit (c mod 64)]%N
      ++ base64 rest
  end.

(** The strings of the examples are ASCII.  Of the units outside
    ASCII the capital letters of Latin-1 get their small letter; any
    other one is left as it is. *)
Definition lowerNonAscii (whole : jsstring) (i : nat) : jsstring :=
  match nth_error whole i with
  | Some c =>
      if ((192 <=? c) && (c <=? 222) && negb (c =? 215))%N then [c + 32]%N else [c]
  | None => []
  end.

Definition host : Host World jsstring jsstring :=
  mkHost lowerNonAscii newURL fileURLToPath
    (Ok (js "/home/user"))
    (fun a b => a ++ b)
    (fun p => startsWith p (js "/"))
    (fun p => Ok (js "/work/" ++ p))
    base64
    fetch arrayBuffer readFile console
    newGoogleGenAI chatsCreate sendMessage countTokens.

Definition pngResponse : Response :=
  mkResponse true 200 (js "http://x.com/b.png") (Some (js "image/png; charset=binary")).
Definition svgResponse : Response :=
  mkResponse true 200 (js "http://x.com/logo.svg") (Some (js " text/xml ;q=1")).
Definition missingResponse : Response :=
  mkResponse false 404 (js "https://example.com/img.png") None.

Definition world : World :=
  mkWorld
    [ (js "/work/report.pdf", [37; 80; 68; 70]%N);
      (js "/work/a.png", [1; 2]%N);
      (js "/home/user/a.png", [9; 9]%N);
      (js "/work/b.png", [3; 4]%N) ]
    [ (js "http://x.com/b.png", (pngResponse, [137; 80; 78; 71]%N));
      (js "http://x.com/logo.svg", (svgResponse, [60; 115; 118; 103; 62]%N));
      (js "https://example.com/img.png", (missingResponse, [])) ]
    [] [] [] [].

Definition settings : list (jsstring * JsValue) := [ (API_KEY, JsString (js " secret ")) ].
End Demo.


(** ** Specification-side definitions *)

Definition noWhitespace (s : jsstring) : bool :=
  forallb (fun c => negb (isWhitespace c)) s.

Definition isSlash (c : char) : bool := N.eqb c CHAR_FORWARD_SLASH.
Definition isDot (c : char) : bool := N.eqb c CHAR_DOT.
Definition notSlash (c : char) : bool := negb (isSlash c).
Definition notDot (c : char) : bool := negb (isDot c).

(** The text before the first [?] or [#]. *)
Definition pathPart (input : jsstring) : jsstring :=
  takeWhile (fun c => negb (N.eqb c CHAR_QUESTION || N.eqb c CHAR_HASH)) input.

(** The last component of a path: trailing slashes are dropped, then
    the text after the last remaining slash is taken. *)
Definition lastComponent (path : jsstring) : jsstring :=
  rev (takeWhile notSlash (dropWhile isSlash (rev path))).

(** A string cut at its last dot: what stands before it and what
    stands after it; [None] when it has no dot. *)
Definition splitLastDot (s : jsstring) : option (jsstring * jsstring) :=
  match dropWhile notDot (rev s) with
  | [] => None
  | _ :: before => Some (rev before, rev (takeWhile notDot (rev s)))
  end.

(** What [path.extname] returns, said without the loop: the last
    component from its last dot on, unless that dot opens the
    component or the component is [..]. *)
Definition extnameSpec (path : jsstring) : jsstring :=
  let component := lastComponent path in
  match splitLastDot component with
  | None => []
  | Some (before, after) =>
      if isEmpty before || str_eqb component (js "..") then []
      else CHAR_DOT :: after
  end.

(** The state in which the loop of [extname] ends when it starts at
    index [i] of the reversed path [r] after the last dot was found at
    [d]: the letters before the dot only set [preDotState]. *)
Definition afterDot (d sp e p : Z) (r : jsstring) (i : Z) : ExtState :=
  let comp := takeWhile notSlash r in
  mkExtState d
    (match dropWhile notSlash r with
     | [] => sp
     | _ :: _ => i - Z.of_nat (length comp) + 1
     end)
    e false
    (match rev comp with
     | [] => p
     | c :: _ => if isDot c then 1 else -1
     end)%Z.

(** The same while no dot was found yet. *)
Definition beforeDot (sp e p : Z) (r : jsstring) (i : Z) : ExtState :=
  let comp := takeWhile notSlash r in
  let sp' := match dropWhile notSlash r with
             | [] => sp
             | _ :: _ => (i - Z.of_nat (length comp) + 1)%Z
             end in
  match dropWhile notDot comp with
  | [] => mkExtState (-1) sp' e false p
  | _ :: b =>
      mkExtState (i - Z.of_nat (length (takeWhile notDot comp))) sp' e false
        (match rev b with
         | [] => p
         | c :: _ => if isDot c then 1 else -1
         end)%Z
  end.

(** The extension as the specification words it: the text from the
    last dot of the part before the first [?] or [#], lower-cased. *)
Definition claimedExtension {W AI Chat : Type} (h : Host W AI Chat)
           (input : jsstring) : option jsstring :=
  match splitLastDot (pathPart input) with
  | None => None
  | Some (_, after) => Some (toLowerCase h (CHAR_DOT :: after))
  end.

(** A string with its ASCII capitals turned into small letters: two
    strings differ in the case of ASCII letters only when this gives
    the same for both. *)
Definition lowerAscii (s : jsstring) : jsstring := map lowerUnit s.

(** White space stands at the head or at the end of the string. *)
Definition blankAtAnEnd (s : jsstring) : bool :=
  headSat isWhitespace s || headSat isWhitespace (rev s).

(** [Scattered pieces text]: the pieces stand in the text one after
    the other, from left to right, without overlap. *)
Inductive Scattered : list jsstring -> jsstring -> Prop :=
| Scattered_nil : forall text, Scattered [] text
| Scattered_cons : forall gap piece pieces rest,
    Scattered pieces rest ->
    Scattered (piece :: pieces) (gap ++ piece ++ rest).

(** Order-preserving removal of duplicates: every string stays at its
    first occurrence. *)
Fixpoint nub (l : list jsstring) : list jsstring :=
  match l with
  | [] => []
  | x :: l' => x :: filter (fun y => negb (str_eqb x y)) (nub l')
  end.

Definition notIn (refs : list jsstring) (x : jsstring) : bool :=
  negb (existsb (str_eqb x) refs).

(** The offset of the first occurrence of [needle] in [text]. *)
Fixpoint indexOf (needle text : jsstring) : option nat :=
  if startsWith text needle then Some 0
  else match text with
       | [] => None
       | _ :: text' => option_map S (indexOf needle text')
       end.

(** The references stand in the order of their first occurrence in
    the text. *)
Fixpoint inTextOrder (text : jsstring) (references : list jsstring) : bool :=
  match references with
  | [] => true
  | r :: rest =>
      forallb (fun r' =>
                 match indexOf r text, indexOf r' text with
                 | Some i, Some j => Nat.leb i j
                 | _, _ => false
                 end) rest
      && inTextOrder text rest
  end.

Section Specification.
Context {W AI Chat : Type}.
Variable h : Host W AI Chat.

(** The candidates the first pass accepts, in the order of the matches. *)
Fixpoint acceptedLinks (matches : list jsstring) : Result (list jsstring) :=
  match matches with
  | [] => Ok []
  | rawMatch :: rest =>
      let candidate := stripWrappingCharacters rawMatch in
      bindR (extensionSource h candidate) (fun source =>
        bindR (acceptedLinks rest) (fun accepted =>
          Ok (if supportedExt (getExtension h source)
              then candidate :: accepted else accepted)))
  end.

(** The candidates the second pass accepts, in the order of the tokens. *)
Fixpoint acceptedTokens (tokens : list jsstring) : list jsstring :=
  match tokens with
  | [] => []
  | rawToken :: rest =>
      let candidate := stripWrappingCharacters rawToken in
      if negb (isEmpty candidate || isHttpUrl h candidate || isFileUrl h candidate)
         && supportedExt (getExtension h candidate)
      then candidate :: acceptedTokens rest
      else acceptedTokens rest
  end.

(** [Loaded load refs w parts w']: calling the loader on the
    references in turn, from world [w], ends in [w'] without an
    exception, and [parts] are the attachments it gave, in order. *)
Inductive Loaded (load : jsstring -> M W (option Part))
  : list jsstring -> W -> list Part -> W -> Prop :=
| Loaded_nil : forall w, Loaded load [] w [] w
| Loaded_part : forall r rest w p w1 parts w2,
    load r w = (Ok (Some p), w1) ->
    Loaded load rest w1 parts w2 ->
    Loaded load (r :: rest) w (p :: parts) w2
| Loaded_none : forall r rest w w1 parts w2,
    load r w = (Ok None, w1) ->
    Loaded load rest w1 parts w2 ->
    Loaded load (r :: rest) w parts w2.

(** One turn of the loop of [main], with its [catch]. *)
Definition runPrompt (ai : AI) (chat : Chat) (model prompt : jsstring) (w : W)
  : Result Outcome * W :=
  match promptBody h ai chat model prompt w with
  | (Ok completion, w') => (Ok completion, w')
  | (Throw error, w') => (mapErrorToCompletion error, w')
  end.

(** [Answered ai chat model prompts w outcomes w']: the prompts were
    run one after the other from world [w], every turn gave an
    outcome, and [outcomes] are these, one for each prompt, in the
    order of the prompts. *)
Inductive Answered (ai : AI) (chat : Chat) (model : jsstring)
  : list jsstring -> W -> list Outcome -> W -> Prop :=
| Answered_nil : forall w, Answered ai chat model [] w [] w
| Answered_cons : forall prompt rest w outcome w1 outcomes w2,
    runPrompt ai chat model prompt w = (Ok outcome, w1) ->
    Answered ai chat model rest w1 outcomes w2 ->
    Answered ai chat model (prompt :: rest) w (outcome :: outcomes) w2.

(** [Broken ai chat model prompts w error w']: some turn, after turns
    that gave an outcome, ended in its [catch] throwing [error]. *)
Inductive Broken (ai : AI) (chat : Chat) (model : jsstring)
  : list jsstring -> W -> Thrown -> W -> Prop :=
| Broken_here : forall prompt rest w error w1,
    runPrompt ai chat model prompt w = (Throw error, w1) ->
    Broken ai chat model (prompt :: rest) w error w1
| Broken_later : forall prompt rest w outcome w1 error w2,
    runPrompt ai chat model prompt w = (Ok outcome, w1) ->
    Broken ai chat model rest w1 error w2 ->
    Broken ai chat model (prompt :: rest) w error w2.

(** What the [catch] of [main] makes of an exception, after its line
    in the log. *)
Definition outerCatch (error : Thrown) (w : W) : Result ConnectorResponse * W :=
  (match mapErrorToCompletion error with
   | Ok completion => Ok (mkConnectorResponse [completion] None)
   | Throw raised => Throw raised
   end,
   console h (ErrorInMain error) w).

(** The thrown values that [mapErrorToCompletion] turns into a
    completion: errors and values with a JSON text. *)
Definition serializable (error : Thrown) : bool :=
  match error with
  | Unserializable _ => false
  | _ => true
  end.

(** A loader that also writes down the reference of every call. *)
Definition recording (load : jsstring -> M W (option Part))
  : jsstring -> M (W * list jsstring) (option Part) :=
  fun reference state =>
    match load reference (fst state) with
    | (result, w') => (result, (w', snd state ++ [reference]))
    end.
End Specification.

(** [needle] occurs in [text] as a run of consecutive characters. *)
Definition isInfix (needle text : jsstring) : Prop :=
  exists before after, text = before ++ needle ++ after.

(** The key that [main] hands to the client:
    [typeof rawApiKey === 'string' && rawApiKey.trim().length > 0
     ? rawApiKey.trim() : undefined]. *)
Definition apiKeyOf (settings : list (jsstring * JsValue)) : option jsstring :=
  match getProperty settings API_KEY with
  | Some (JsString raw) => if negb (isEmpty (trim raw)) then Some (trim raw) else None
  | _ => None
  end.

(** The host [h] with another network, and with another file system. *)
Definition withNetwork {W AI Chat : Type} (h : Host W AI Chat)
           (fetch' : jsstring -> W -> Result Response * W)
           (arrayBuffer' : Response -> W -> Result Bytes * W) : Host W AI Chat :=
  mkHost (lowerNonAscii h) (newURL h) (fileURLToPath h) (homedir h) (pathJoin h)
         (pathIsAbsolute h)
         (pathResolve h) (base64 h) fetch' arrayBuffer' (readFile h) (console h)
         (newGoogleGenAI h) (chatsCreate h) (sendMessage h) (countTokens h).

Definition withFileSystem {W AI Chat : Type} (h : Host W AI Chat)
           (readFile' : jsstring -> W -> Result Bytes * W) : Host W AI Chat :=
  mkHost (lowerNonAscii h) (newURL h) (fileURLToPath h) (homedir h) (pathJoin h)
         (pathIsAbsolute h)
         (pathResolve h) (base64 h) (fetch h) (arrayBuffer h) readFile' (console h)
         (newGoogleGenAI h) (chatsCreate h) (sendMessage h) (countTokens h).

(** * Properties *)

(** ** Strings and scanning of lists *)

Lemma str_eqb_eq (a b : jsstring) : str_eqb a b = true <-> a = b.
Proof.
  revert b; induction a as [|x a IH]; intros [|y b]; simpl; split; intro H;
    try reflexivity; try discriminate.
  - apply andb_true_iff in H as [Hx Hab].
    apply N.eqb_eq in Hx. apply IH in Hab. now subst.
  - injection H as -> ->. rewrite N.eqb_refl. simpl. now apply IH.
Qed.

Lemma str_eqb_refl (a : jsstring) : str_eqb a a = true.
Proof. now apply str_eqb_eq. Qed.

Lemma str_eqb_neq (a b : jsstring) : str_eqb a b = false <-> a <> b.
Proof.
  split.
  - intros H E. apply str_eqb_eq in E. congruence.
  - intro H. destruct (str_eqb a b) eqn:E; [|reflexivity].
    apply str_eqb_eq in E. contradiction.
Qed.

Lemma str_eqb_sym (a b : jsstring) : str_eqb a b = str_eqb b a.
Proof.
  destruct (str_eqb a b) eqn:E.
  - apply str_eqb_eq in E. subst. symmetry. apply str_eqb_refl.
  - symmetry. apply str_eqb_neq. apply str_eqb_neq in E. congruence.
Qed.

Section ListScanFacts.
Variable A : Type.
Variables p q : A -> bool.

Lemma takeWhile_dropWhile (l : list A) : takeWhile p l ++ dropWhile p l = l.
Proof.
  induction l as [|x l IH]; simpl; [reflexivity|].
  destruct (p x); simpl; [now rewrite IH | reflexivity].
Qed.

Lemma dropWhile_head_fixed (l : list A) :
  match l with [] => true | x :: _ => negb (p x) end = true -> dropWhile p l = l.
Proof.
  destruct l as [|x l]; simpl; [reflexivity|].
  now destruct (p x).
Qed.

Lemma dropWhile_head (l : list A) :
  match dropWhile p l with [] => true | x :: _ => negb (p x) end = true.
Proof.
  induction l as [|x l IH]; simpl; [reflexivity|].
  destruct (p x) eqn:E; [exact IH | simpl; now rewrite E].
Qed.

Lemma dropWhileEnd_app_last (l : list A) (x : A) :
  dropWhileEnd p (l ++ [x]) = if p x then dropWhileEnd p l else l ++ [x].
Proof.
  induction l as [|y l IH]; simpl.
  - now destruct (p x).
  - rewrite IH. destruct (p x) eqn:E; [reflexivity|].
    destruct l; reflexivity.
Qed.

Lemma dropWhileEnd_idempotent (l : list A) :
  dropWhileEnd p (dropWhileEnd p l) = dropWhileEnd p l.
Proof.
  induction l as [|x l IH]; simpl; [reflexivity|].
  destruct (dropWhileEnd p l) as [|y t] eqn:E.
  - destruct (p x) eqn:Ex; simpl; [reflexivity | now rewrite Ex].
  - simpl. simpl in IH. now rewrite IH.
Qed.

Lemma dropWhileEnd_keeps_head (l : list A) :
  headSat q (dropWhileEnd p l) = true -> headSat q l = true.
Proof.
  destruct l as [|x l]; simpl; [discriminate|].
  destruct (dropWhileEnd p l); [destruct (p x)|]; simpl; congruence.
Qed.

Lemma dropWhileEnd_fixed (l : list A) :
  forallb (fun x => negb (p x)) l = true -> dropWhileEnd p l = l.
Proof.
  induction l as [|x l IH]; simpl; [reflexivity|].
  intro H. apply andb_true_iff in H as [Hx Hl].
  rewrite (IH Hl). destruct l; [|reflexivity].
  now destruct (p x).
Qed.

Lemma dropWhile_length (l : list A) : length (dropWhile p l) <= length l.
Proof.
  induction l as [|x l IH]; simpl; [lia|].
  destruct (p x); simpl; lia.
Qed.

Lemma dropWhile_shorter (l : list A) :
  headSat p l = true -> length (dropWhile p l) < length l.
Proof.
  destruct l as [|x l]; simpl; [discriminate|].
  intros ->. pose proof (dropWhile_length l). lia.
Qed.

Lemma dropWhileEnd_length (l : list A) : length (dropWhileEnd p l) <= length l.
Proof.
  induction l as [|x l IH]; simpl; [lia|].
  destruct (dropWhileEnd p l); [destruct (p x)|]; simpl in *; lia.
Qed.

Lemma dropWhileEnd_shorter (l : list A) :
  headSat p (rev l) = true -> length (dropWhileEnd p l) < length l.
Proof.
  destruct l as [|x l] using rev_ind; [discriminate|].
  rewrite rev_app_distr. cbn [rev app headSat]. intro Hx.
  rewrite dropWhileEnd_app_last, Hx, length_app. cbn [length].
  pose proof (dropWhileEnd_length l). lia.
Qed.

Lemma dropWhileEnd_last_fixed (l : list A) :
  headSat p (rev l) = false -> dropWhileEnd p l = l.
Proof.
  destruct l as [|x l] using rev_ind; [reflexivity|].
  rewrite rev_app_distr. cbn [rev app headSat]. intro Hx.
  now rewrite dropWhileEnd_app_last, Hx.
Qed.

Lemma forallb_dropWhile (l : list A) :
  forallb q l = true -> forallb q (dropWhile p l) = true.
Proof.
  induction l as [|x l IH]; simpl; [reflexivity|].
  intro H. apply andb_true_iff in H as [Hx Hl].
  destruct (p x); [now apply IH | simpl; now rewrite Hx, Hl].
Qed.

Lemma forallb_dropWhileEnd (l : list A) :
  forallb q l = true -> forallb q (dropWhileEnd p l) = true.
Proof.
  induction l as [|x l IH]; simpl; [reflexivity|].
  intro H. apply andb_true_iff in H as [Hx Hl]. specialize (IH Hl).
  destruct (dropWhileEnd p l) as [|y t].
  - destruct (p x); simpl; [reflexivity | now rewrite Hx].
  - change (q x && forallb q (y :: t) = true). now rewrite Hx, IH.
Qed.
End ListScanFacts.

(** ** The token normalizer *)

(** With fuel for every character the loop ends because its test
    fails: it removes the longest suffix of closers. *)
Lemma cutClosers_dropWhileEnd (fuel : nat) :
  forall candidate, length candidate <= fuel ->
    cutClosers fuel candidate = dropWhileEnd isCloser candidate.
Proof.
  induction fuel as [|fuel IH]; intros candidate Hlen.
  - destruct candidate; [reflexivity | simpl in Hlen; lia].
  - cbn [cutClosers].
    destruct candidate as [|c candidate'] using rev_ind; [reflexivity|].
    clear IHcandidate'.
    unfold endsWithCloser. rewrite rev_app_distr. cbn [rev app].
    rewrite dropWhileEnd_app_last, removelast_last.
    replace (isEmpty (candidate' ++ [c])) with false by (now destruct candidate').
    cbn [negb andb].
    destruct (isCloser c); [|reflexivity].
    apply IH. rewrite length_app in Hlen. cbn [length] in Hlen. lia.
Qed.

Lemma stripWrappingCharacters_dropWhileEnd (value : jsstring) :
  stripWrappingCharacters value
  = dropWhileEnd isCloser (dropWhile isOpener (trim value)).
Proof.
  unfold stripWrappingCharacters. now apply cutClosers_dropWhileEnd.
Qed.

Lemma trim_noWhitespace (s : jsstring) : noWhitespace s = true -> trim s = s.
Proof.
  intro H. unfold trim.
  rewrite dropWhile_head_fixed.
  - now apply dropWhileEnd_fixed.
  - destruct s as [|c s]; [reflexivity|].
    simpl in H. now apply andb_true_iff in H as [Hc _].
Qed.

Lemma stripWrappingCharacters_noWhitespace (s : jsstring) :
  noWhitespace s = true -> noWhitespace (stripWrappingCharacters s) = true.
Proof.
  intro H. rewrite stripWrappingCharacters_dropWhileEnd, (trim_noWhitespace _ H).
  apply forallb_dropWhileEnd, forallb_dropWhile, H.
Qed.

(** A normalized string neither opens with an opener nor ends with a
    closer: on a string without white space the normalizer stops. *)
Lemma stripWrappingCharacters_fixed (s : jsstring) :
  noWhitespace s = true ->
  let t := stripWrappingCharacters s in
  dropWhile isOpener t = t /\ dropWhileEnd isCloser t = t.
Proof.
  intros H t. subst t. rewrite stripWrappingCharacters_dropWhileEnd.
  rewrite (trim_noWhitespace _ H). split.
  - apply dropWhile_head_fixed.
    pose proof (dropWhile_head isOpener s) as Hh.
    pose proof (@dropWhileEnd_keeps_head _ isCloser isOpener (dropWhile isOpener s)) as Hk.
    unfold headSat in Hk.
    destruct (dropWhileEnd isCloser (dropWhile isOpener s)) as [|c t] eqn:E; [reflexivity|].
    simpl in Hk. destruct (isOpener c) eqn:Ec; [|reflexivity].
    specialize (Hk eq_refl).
    destruct (dropWhile isOpener s) as [|d u]; simpl in Hk; [discriminate|].
    rewrite Hk in Hh. discriminate.
  - apply dropWhileEnd_idempotent.
Qed.

(** What the normalizer returns neither opens with an opener nor ends
    with a closer, whatever it was given. *)
Lemma stripWrappingCharacters_stops (value : jsstring) :
  let t := stripWrappingCharacters value in
  dropWhile isOpener t = t /\ dropWhileEnd isCloser t = t.
Proof.
  intro t. subst t. rewrite stripWrappingCharacters_dropWhileEnd. split.
  - apply dropWhile_head_fixed.
    pose proof (dropWhile_head isOpener (trim value)) as Hh.
    pose proof (@dropWhileEnd_keeps_head _ isCloser isOpener
                  (dropWhile isOpener (trim value))) as Hk.
    unfold headSat in Hk.
    destruct (dropWhileEnd isCloser (dropWhile isOpener (trim value))) as [|c t] eqn:E;
      [reflexivity|].
    simpl in Hk. destruct (isOpener c) eqn:Ec; [|reflexivity].
    specialize (Hk eq_refl).
    destruct (dropWhile isOpener (trim value)) as [|d u]; simpl in Hk; [discriminate|].
    rewrite Hk in Hh. discriminate.
  - apply dropWhileEnd_idempotent.
Qed.

(** [trim] leaves a string as it is exactly when no white space stands
    at its ends; otherwise it makes the string shorter. *)
Lemma trim_without_blank_end (t : jsstring) : blankAtAnEnd t = false -> trim t = t.
Proof.
  unfold blankAtAnEnd. intro H. apply orb_false_iff in H as [Hhead Hlast].
  unfold trim. rewrite dropWhile_head_fixed.
  - now apply dropWhileEnd_last_fixed.
  - destruct t as [|c t]; [reflexivity|]. cbn [headSat] in Hhead. now rewrite Hhead.
Qed.

Lemma trim_shorter (t : jsstring) : blankAtAnEnd t = true -> length (trim t) < length t.
Proof.
  unfold blankAtAnEnd, trim. intro H.
  pose proof (dropWhileEnd_length isWhitespace (dropWhile isWhitespace t)) as Hend.
  destruct (headSat isWhitespace t) eqn:Hhead.
  - pose proof (dropWhile_shorter isWhitespace t Hhead). lia.
  - cbn [orb] in H. rewrite dropWhile_head_fixed.
    + now apply dropWhileEnd_shorter.
    + destruct t as [|c t]; [reflexivity|]. cbn [headSat] in Hhead. now rewrite Hhead.
Qed.

Lemma noWhitespace_without_blank_end (t : jsstring) :
  noWhitespace t = true -> blankAtAnEnd t = false.
Proof.
  intro H. unfold blankAtAnEnd. apply orb_false_iff. split.
  - destruct t as [|c t]; [reflexivity|]. cbn [headSat].
    cbn [noWhitespace forallb] in H. apply andb_true_iff in H as [Hc _].
    now apply negb_true_iff in Hc.
  - assert (Hrev : noWhitespace (rev t) = true).
    { apply forallb_forall. intros x Hx. apply in_rev in Hx.
      revert x Hx. now apply forallb_forall. }
    destruct (rev t) as [|c r]; [reflexivity|]. cbn [headSat].
    cbn [noWhitespace forallb] in Hrev. apply andb_true_iff in Hrev as [Hc _].
    now apply negb_true_iff in Hc.
Qed.

(** C5, amended: normalizing twice gives the same as normalizing once
    exactly when the first result has no white space at either end; so
    it does on every string without white space, which every candidate
    of the scanner is. *)
Theorem stripWrappingCharacters_idempotent (s : jsstring) :
  (stripWrappingCharacters (stripWrappingCharacters s) = stripWrappingCharacters s
   <-> blankAtAnEnd (stripWrappingCharacters s) = false)
  /\ (noWhitespace s = true ->
      stripWrappingCharacters (stripWrappingCharacters s) = stripWrappingCharacters s).
Proof.
  destruct (stripWrappingCharacters_stops s) as [Hopen Hclose].
  assert (Hback : blankAtAnEnd (stripWrappingCharacters s) = false ->
                  stripWrappingCharacters (stripWrappingCharacters s)
                  = stripWrappingCharacters s).
  { intro Hblank.
    rewrite (stripWrappingCharacters_dropWhileEnd (stripWrappingCharacters s)).
    rewrite (trim_without_blank_end _ Hblank), Hopen. exact Hclose. }
  split; [split; [|exact Hback]|].
  - intro Hfix. destruct (blankAtAnEnd (stripWrappingCharacters s)) eqn:Hblank;
      [exfalso | reflexivity].
    apply trim_shorter in Hblank.
    apply (f_equal (@length char)) in Hfix.
    rewrite (stripWrappingCharacters_dropWhileEnd (stripWrappingCharacters s)) in Hfix.
    pose proof (dropWhileEnd_length isCloser
                  (dropWhile isOpener (trim (stripWrappingCharacters s)))).
    pose proof (dropWhile_length isOpener (trim (stripWrappingCharacters s))).
    lia.
  - intro Hws. apply Hback, noWhitespace_without_blank_end.
    now apply stripWrappingCharacters_noWhitespace.
Qed.

Lemma stripWrappingCharacters_idempotent_witness :
  blankAtAnEnd (stripWrappingCharacters (js "  (my file.pdf).  ")) = false
  /\ stripWrappingCharacters (stripWrappingCharacters (js "  (my file.pdf).  "))
     = js "my file.pdf"
  /\ noWhitespace (js "(see:file.pdf).") = true
  /\ stripWrappingCharacters (stripWrappingCharacters (js "(see:file.pdf)."))
     = js "see:file.pdf".
Proof.
  split; [reflexivity|]. split; [|split; [reflexivity|]].
  - rewrite (proj2 (proj1 (stripWrappingCharacters_idempotent (js "  (my file.pdf).  ")))
               eq_refl).
    reflexivity.
  - rewrite (proj2 (stripWrappingCharacters_idempotent (js "(see:file.pdf).")) eq_refl).
    reflexivity.
Defined.

(** C5 as stated fails: stripping the opener of [( a] uncovers a blank
    that only a second pass trims. *)
Lemma stripWrappingCharacters_not_idempotent :
  ~ (forall s : jsstring,
       stripWrappingCharacters (stripWrappingCharacters s) = stripWrappingCharacters s).
Proof.
  intro H. specialize (H (js "( a")). vm_compute in H. discriminate.
Qed.

(** ** [path.extname]: the loop and what it computes *)

Lemma dot_not_slash (c : char) : isDot c = true -> isSlash c = false.
Proof.
  unfold isDot, isSlash. intro H. apply N.eqb_eq in H. now subst.
Qed.

Lemma extnameLoop_slashes (r : jsstring) (i : Z) :
  extnameLoop r i extInit =
  extnameLoop (dropWhile isSlash r)
              (i - Z.of_nat (length (takeWhile isSlash r))) extInit.
Proof.
  revert i; induction r as [|c r IH]; intro i.
  - reflexivity.
  - simpl dropWhile. simpl takeWhile. destruct (isSlash c) eqn:E.
    + cbn [extnameLoop]. unfold isSlash in E. rewrite E. cbn [extInit matchedSlash negb].
      fold extInit. rewrite IH. f_equal. cbn [length]. lia.
    + cbn [length]. replace (i - Z.of_nat 0)%Z with i by lia. reflexivity.
Qed.

Lemma extnameLoop_afterDot (r : jsstring) :
  forall i d sp e p, d <> (-1)%Z -> e <> (-1)%Z ->
    extnameLoop r i (mkExtState d sp e false p) = afterDot d sp e p r i.
Proof.
  induction r as [|c r IH]; intros i d sp e p Hd He.
  - reflexivity.
  - cbn [extnameLoop]. unfold afterDot. cbn [takeWhile dropWhile].
    change (N.eqb c CHAR_FORWARD_SLASH) with (isSlash c).
    change (notSlash c) with (negb (isSlash c)).
    apply Z.eqb_neq in Hd, He.
    destruct (isSlash c) eqn:Es;
      cbn [negb matchedSlash startDot startPart endPos preDotState length rev app].
    + f_equal. lia.
    + rewrite He. cbn [startDot startPart endPos preDotState matchedSlash].
      rewrite Hd. cbn [negb].
      assert (Hstep : forall p', 
        extnameLoop r (i - 1) (mkExtState d sp e false p') = afterDot d sp e p' r (i - 1)).
      { intro p'. apply IH; now apply Z.eqb_neq. }
      assert (Hstate : (if N.eqb c CHAR_DOT
                        then if negb (Z.eqb p 1) then mkExtState d sp e false 1
                             else mkExtState d sp e false p
                        else mkExtState d sp e false (-1))
                       = mkExtState d sp e false (if isDot c then 1 else -1)%Z).
      { unfold isDot. destruct (N.eqb c CHAR_DOT); [|reflexivity].
        destruct (Z.eqb p 1) eqn:Ep; simpl; [|reflexivity].
        apply Z.eqb_eq in Ep. now subst. }
      rewrite Hstate, Hstep. unfold afterDot. f_equal.
      * destruct (dropWhile notSlash r); [reflexivity|]. lia.
      * destruct (rev (takeWhile notSlash r)); reflexivity.
Qed.

Lemma extnameLoop_beforeDot (r : jsstring) :
  forall i sp e p, (Z.of_nat (length r) <= i + 1)%Z -> e <> (-1)%Z ->
    extnameLoop r i (mkExtState (-1) sp e false p) = beforeDot sp e p r i.
Proof.
  induction r as [|c r IH]; intros i sp e p Hi He.
  - reflexivity.
  - cbn [length] in Hi.
    cbn [extnameLoop]. unfold beforeDot. cbn [takeWhile dropWhile].
    change (N.eqb c CHAR_FORWARD_SLASH) with (isSlash c).
    change (N.eqb c CHAR_DOT) with (isDot c).
    change (notSlash c) with (negb (isSlash c)).
    pose proof He as He'. apply Z.eqb_neq in He'.
    destruct (isSlash c) eqn:Es;
      cbn [negb matchedSlash startDot startPart endPos preDotState length rev app
           takeWhile dropWhile].
    + f_equal. lia.
    + rewrite He'. cbn [startDot startPart endPos preDotState matchedSlash].
      change (notDot c) with (negb (isDot c)).
      rewrite Z.eqb_refl.
      destruct (isDot c) eqn:Ed; cbn [negb length].
      * rewrite extnameLoop_afterDot by lia. unfold afterDot. f_equal; [lia|].
        destruct (dropWhile notSlash r); [reflexivity | lia].
      * rewrite IH by lia. unfold beforeDot.
        destruct (dropWhile notDot (takeWhile notSlash r)).
        -- f_equal. destruct (dropWhile notSlash r); [reflexivity | lia].
        -- f_equal; [lia|]. destruct (dropWhile notSlash r); [reflexivity | lia].
Qed.

Lemma extnameLoop_first (c : char) (r : jsstring) (i : Z) :
  isSlash c = false -> (Z.of_nat (length r) <= i)%Z ->
  extnameLoop (c :: r) i extInit = beforeDot 0 (i + 1) 0 (c :: r) i.
Proof.
  intros Hc Hi.
  rewrite <- extnameLoop_beforeDot by (cbn [length]; lia).
  cbn [extnameLoop]. change (N.eqb c CHAR_FORWARD_SLASH) with (isSlash c).
  rewrite Hc. cbn [extInit endPos startDot startPart matchedSlash preDotState].
  replace (Z.eqb (i + 1) (-1)) with false by (symmetry; apply Z.eqb_neq; lia).
  reflexivity.
Qed.

Lemma slice_middle (u v w : jsstring) (a b : Z) :
  a = Z.of_nat (length u) -> b = Z.of_nat (length u + length v) ->
  slice a b (u ++ v ++ w) = v.
Proof.
  intros -> ->. unfold slice.
  rewrite Nat2Z.id.
  replace (Z.to_nat (Z.of_nat (length u + length v) - Z.of_nat (length u)))
    with (length v) by lia.
  rewrite skipn_app, skipn_all, Nat.sub_diag. simpl.
  rewrite firstn_app, firstn_all, Nat.sub_diag. simpl. apply app_nil_r.
Qed.

Lemma rev_eq_nil (A : Type) (l : list A) : rev l = [] -> l = [].
Proof.
  intro H. apply (f_equal (@rev A)) in H. now rewrite rev_involutive in H.
Qed.

(** [path.extname] returns the last component from its last dot on,
    unless that dot opens the component or the component is [..]. *)
Lemma extname_extnameSpec (path : jsstring) : extname path = extnameSpec path.
Proof.
  unfold extname, extnameSpec, lastComponent, splitLastDot.
  rewrite rev_involutive.
  pose proof (takeWhile_dropWhile isSlash (rev path)) as Hsplit.
  assert (Hlen : length path = (length (takeWhile isSlash (rev path))
                                + length (dropWhile isSlash (rev path)))%nat).
  { rewrite <- length_app, Hsplit. symmetry. apply length_rev. }
  rewrite extnameLoop_slashes.
  assert (Hpath : path = rev (dropWhile isSlash (rev path))
                         ++ rev (takeWhile isSlash (rev path))).
  { rewrite <- rev_app_distr, Hsplit. symmetry. apply rev_involutive. }
  pose proof (dropWhile_head isSlash (rev path)) as Hhead.
  remember (takeWhile isSlash (rev path)) as sl eqn:Esl. clear Esl.
  destruct (dropWhile isSlash (rev path)) as [|c r1] eqn:Er1.
  - reflexivity.
  - apply negb_true_iff in Hhead.
    cbn [length] in Hlen.
    rewrite extnameLoop_first by (try assumption; lia).
    unfold beforeDot.
    pose proof (takeWhile_dropWhile notSlash (c :: r1)) as Hcomp.
    pose proof (takeWhile_dropWhile notDot (takeWhile notSlash (c :: r1))) as Hdot.
    pose proof (dropWhile_head notDot (takeWhile notSlash (c :: r1))) as Hx.
    remember (takeWhile notSlash (c :: r1)) as comp eqn:Ecomp. clear Ecomp.
    remember (dropWhile notSlash (c :: r1)) as rest eqn:Erest. clear Erest.
    remember (takeWhile notDot comp) as a eqn:Ea.
    assert (Hlr : length (c :: r1) = (length comp + length rest)%nat).
    { rewrite <- length_app. now rewrite Hcomp. }
    cbn [length] in Hlr.
    remember (Z.of_nat (length path) - 1 - Z.of_nat (length sl))%Z as i eqn:Ei.
    assert (Hi : i = (Z.of_nat (length comp) + Z.of_nat (length rest) - 1)%Z) by lia.
    remember (match rest with [] => 0%Z | _ :: _ => (i - Z.of_nat (length comp) + 1)%Z end)
      as sp eqn:Esp.
    assert (Hsp : sp = Z.of_nat (length rest)).
    { subst sp. destruct rest; cbn [length] in *; lia. }
    clear Esp.
    destruct (dropWhile notDot comp) as [|x b] eqn:Eb.
    + reflexivity.
    + assert (Hlc : length comp = (length a + S (length b))%nat).
      { rewrite <- Hdot, length_app. reflexivity. }
      assert (Ex : x = CHAR_DOT).
      { unfold notDot, isDot in Hx. rewrite negb_involutive in Hx.
        now apply N.eqb_eq in Hx. }
      cbn [startDot startPart endPos preDotState].
      replace (Z.eqb (i - Z.of_nat (length a)) (-1)) with false
        by (symmetry; apply Z.eqb_neq; lia).
      replace (Z.eqb (i + 1) (-1)) with false by (symmetry; apply Z.eqb_neq; lia).
      cbn [orb].
      destruct (rev b) as [|c0 t] eqn:Erb.
      * reflexivity.
      * cbn [isEmpty orb].
        assert (Hlb : length b = S (length t)).
        { rewrite <- (length_rev b), Erb. reflexivity. }
        assert (Hcond :
          (Z.eqb (if isDot c0 then 1 else -1) 0
           || (Z.eqb (if isDot c0 then 1 else -1) 1
               && Z.eqb (i - Z.of_nat (length a)) (i + 1 - 1)
               && Z.eqb (i - Z.of_nat (length a)) (sp + 1)))%Z
          = str_eqb (rev comp) (js "..")).
        { destruct (str_eqb (rev comp) (js "..")) eqn:Edd.
          - apply str_eqb_eq in Edd.
            apply (f_equal (@rev char)) in Edd. rewrite rev_involutive in Edd.
            change (rev (js "..")) with [CHAR_DOT; CHAR_DOT] in Edd.
            assert (Ha : a = []) by (rewrite Ea, Edd; reflexivity).
            rewrite Edd in Eb. cbn in Eb. injection Eb as _ Eb'.
            subst b. cbn in Erb. injection Erb as <- <-.
            rewrite Ha. rewrite Edd in Hi. cbn [length] in Hi.
            cbn [isDot]. unfold isDot. rewrite N.eqb_refl.
            cbn [length]. 
            replace (Z.eqb (i - Z.of_nat 0) (i + 1 - 1)) with true
              by (symmetry; apply Z.eqb_eq; lia).
            replace (Z.eqb (i - Z.of_nat 0) (sp + 1)) with true
              by (symmetry; apply Z.eqb_eq; lia).
            reflexivity.
          - apply str_eqb_neq in Edd.
            destruct (isDot c0) eqn:Ec0; cbn [Z.eqb orb andb]; [|reflexivity].
            destruct (Z.eqb (i - Z.of_nat (length a)) (i + 1 - 1)) eqn:E1;
              [|reflexivity].
            destruct (Z.eqb (i - Z.of_nat (length a)) (sp + 1)) eqn:E2;
              [|reflexivity].
            exfalso. apply Edd.
            apply Z.eqb_eq in E1, E2.
            assert (Ha : a = []) by (destruct a; [reflexivity | cbn [length] in E1; lia]).
            assert (Ht : t = []) by (destruct t; [reflexivity | cbn [length] in *; lia]).
            subst t. apply (f_equal (@rev char)) in Erb.
            rewrite rev_involutive in Erb. cbn in Erb.
            rewrite <- Hdot. rewrite Ha, Erb, Ex.
            unfold isDot in Ec0. apply N.eqb_eq in Ec0. now subst c0. }
        rewrite Hcond.
        destruct (str_eqb (rev comp) (js "..")); [reflexivity|].
        rewrite Hpath.
        assert (Hr1 : rev (c :: r1) = (rev rest ++ rev b) ++ (CHAR_DOT :: rev a)).
        { rewrite <- Hcomp, <- Hdot. rewrite Ex.
          rewrite !rev_app_distr. cbn [rev]. rewrite <- !app_assoc. reflexivity. }
        rewrite Hr1, <- app_assoc.
        apply slice_middle.
        -- rewrite length_app, !length_rev. lia.
        -- rewrite length_app, !length_rev. cbn [length]. rewrite length_rev. lia.
Qed.

(** ** The type classifier *)

Section MapScan.
Variables (A B : Type) (f : A -> B) (p : B -> bool) (q : A -> bool).
Hypothesis test_f : forall x, p (f x) = q x.

Lemma takeWhile_map (l : list A) : takeWhile p (map f l) = map f (takeWhile q l).
Proof.
  induction l as [|x l IH]; simpl; [reflexivity|].
  rewrite test_f. destruct (q x); simpl; [now rewrite IH | reflexivity].
Qed.
End MapScan.

Lemma takeWhile_takeWhile (A : Type) (p q : A -> bool) (l : list A) :
  takeWhile q (takeWhile p l) = takeWhile (fun x => p x && q x) l.
Proof.
  induction l as [|x l IH]; simpl; [reflexivity|].
  destruct (p x); simpl; [|reflexivity].
  destruct (q x); [now rewrite IH | reflexivity].
Qed.

Lemma takeWhile_ext (A : Type) (p q : A -> bool) (l : list A) :
  (forall x, p x = q x) -> takeWhile p l = takeWhile q l.
Proof.
  intro H. induction l as [|x l IH]; simpl; [reflexivity|].
  rewrite H, IH. reflexivity.
Qed.

(** [input.split('?')[0].split('#')[0]] is the text before the first
    [?] or [#]. *)
Lemma beforeFirst_pathPart (input : jsstring) :
  beforeFirst CHAR_HASH (beforeFirst CHAR_QUESTION input) = pathPart input.
Proof.
  unfold beforeFirst, pathPart. rewrite takeWhile_takeWhile.
  apply takeWhile_ext. intro c. now rewrite negb_orb.
Qed.

Lemma lowerUnit_keeps (c k : char) :
  isUpper k = false -> isLower k = false ->
  N.eqb (lowerUnit c) k = N.eqb c k.
Proof.
  unfold lowerUnit, isUpper, isLower. intros Hu Hl.
  destruct ((65 <=? c) && (c <=? 90))%N eqn:E; [|reflexivity].
  apply andb_true_iff in E as [E1 E2]. apply N.leb_le in E1, E2.
  assert (Hk : (k < 65 \/ 90 < k)%N).
  { apply andb_false_iff in Hu as [H|H]; apply N.leb_gt in H; lia. }
  assert (Hk' : (k < 97 \/ 122 < k)%N).
  { apply andb_false_iff in Hl as [H|H]; apply N.leb_gt in H; lia. }
  transitivity false; [|symmetry]; apply N.eqb_neq; lia.
Qed.

Lemma lowerUnit_idempotent (c : char) : lowerUnit (lowerUnit c) = lowerUnit c.
Proof.
  unfold lowerUnit at 1. destruct (isUpper (lowerUnit c)) eqn:E; [|reflexivity].
  exfalso. unfold lowerUnit, isUpper in E.
  destruct ((65 <=? c) && (c <=? 90))%N eqn:E'.
  - apply andb_true_iff in E' as [E1 E2]. apply N.leb_le in E1, E2.
    apply andb_true_iff in E as [E3 E4]. apply N.leb_le in E3, E4. lia.
  - congruence.
Qed.

Lemma lowerUnit_isAscii (c : char) : isAscii (lowerUnit c) = isAscii c.
Proof.
  unfold lowerUnit, isUpper, isAscii.
  destruct ((65 <=? c) && (c <=? 90))%N eqn:E; [|reflexivity].
  apply andb_true_iff in E as [E1 E2]. apply N.leb_le in E1, E2.
  transitivity true; [|symmetry]; apply N.ltb_lt; lia.
Qed.

Lemma lowerAscii_isAscii (s : jsstring) :
  forallb isAscii (lowerAscii s) = forallb isAscii s.
Proof.
  induction s as [|c s IH]; [reflexivity|].
  unfold lowerAscii in *. cbn [map forallb]. now rewrite lowerUnit_isAscii, IH.
Qed.

Lemma extnameLoop_lowerAscii (r : jsstring) :
  forall i st, extnameLoop (lowerAscii r) i st = extnameLoop r i st.
Proof.
  induction r as [|c r IH]; intros i st; [reflexivity|].
  unfold lowerAscii. cbn [map extnameLoop]. fold (lowerAscii r).
  rewrite !lowerUnit_keeps by reflexivity.
  rewrite !IH. reflexivity.
Qed.

Lemma slice_map (f : char -> char) (a b : Z) (s : jsstring) :
  slice a b (map f s) = map f (slice a b s).
Proof. unfold slice. now rewrite skipn_map, firstn_map. Qed.

(** [path.extname] does not look at the case of ASCII letters. *)
Lemma extname_lowerAscii (path : jsstring) :
  extname (lowerAscii path) = lowerAscii (extname path).
Proof.
  unfold extname.
  replace (rev (lowerAscii path)) with (lowerAscii (rev path))
    by (unfold lowerAscii; apply map_rev).
  rewrite extnameLoop_lowerAscii.
  replace (length (lowerAscii path)) with (length path)
    by (unfold lowerAscii; symmetry; apply length_map).
  match goal with |- (if ?c then _ else _) = _ => destruct c end.
  - reflexivity.
  - apply slice_map.
Qed.

Lemma pathPart_lowerAscii (input : jsstring) :
  pathPart (lowerAscii input) = lowerAscii (pathPart input).
Proof.
  unfold pathPart, lowerAscii. apply takeWhile_map.
  intro c. now rewrite !lowerUnit_keeps.
Qed.

Lemma lookup_key (table : list (jsstring * jsstring)) (key : jsstring) :
  (exists v, lookup table key = Some v) <-> In key (map fst table).
Proof.
  induction table as [|[k v] table IH]; simpl.
  - split; [intros [v H]; discriminate | contradiction].
  - destruct (str_eqb k key) eqn:E.
    + apply str_eqb_eq in E. split; [now left | eauto].
    + apply str_eqb_neq in E. rewrite IH. split; [now right | intros [H|H]; tauto].
Qed.

Lemma lookup_value (table : list (jsstring * jsstring)) (key v : jsstring) :
  lookup table key = Some v -> In v (map snd table).
Proof.
  induction table as [|[k v'] table IH]; simpl; [discriminate|].
  destruct (str_eqb k key); [intro H; injection H; now left | auto].
Qed.

Section ClassifierFacts.
Context {W AI Chat : Type}.
Variable h : Host W AI Chat.

(** On a string of ASCII characters [toLowerCase] needs no table. *)
Lemma lowerFrom_ascii (whole rest : jsstring) (i : nat) :
  forallb isAscii rest = true -> lowerFrom h whole i rest = lowerAscii rest.
Proof.
  revert i. induction rest as [|c rest IH]; intros i H; [reflexivity|].
  cbn [forallb] in H. apply andb_true_iff in H as [Hc Hrest].
  cbn [lowerFrom]. rewrite Hc, (IH (S i) Hrest). reflexivity.
Qed.

Lemma toLowerCase_ascii (s : jsstring) :
  forallb isAscii s = true -> toLowerCase h s = lowerAscii s.
Proof. apply lowerFrom_ascii. Qed.

(** A dot at the head of a string stays there. *)
Lemma toLowerCase_dot (s : jsstring) :
  exists rest, toLowerCase h (CHAR_DOT :: s) = CHAR_DOT :: rest.
Proof. unfold toLowerCase. cbn [lowerFrom]. eexists. reflexivity. Qed.

Lemma getExtension_extnameSpec (input : jsstring) :
  getExtension h input
  = (let ext := extnameSpec (pathPart input) in
     if isEmpty ext then None else Some (toLowerCase h ext)).
Proof.
  unfold getExtension. now rewrite beforeFirst_pathPart, extname_extnameSpec.
Qed.

(** An extension opens with its dot, so a lookup of it in the object
    literal SUPPORTED_FILE_TYPES never meets an inherited property. *)
Lemma getExtension_starts_with_dot (input ext : jsstring) :
  getExtension h input = Some ext -> exists rest, ext = CHAR_DOT :: rest.
Proof.
  rewrite getExtension_extnameSpec. unfold extnameSpec. cbn zeta.
  destruct (splitLastDot (lastComponent (pathPart input))) as [[before after]|];
    [|discriminate].
  destruct (isEmpty before || str_eqb (lastComponent (pathPart input)) (js ".."));
    [discriminate|].
  cbn [isEmpty]. intro H. injection H as <-.
  apply toLowerCase_dot.
Qed.

(** The lower-casing is all that tells two extensions apart. *)
Lemma getExtension_same_lower (input input' : jsstring) :
  toLowerCase h (extnameSpec (pathPart input'))
  = toLowerCase h (extnameSpec (pathPart input)) ->
  getExtension h input' = getExtension h input.
Proof.
  assert (Hshape : forall path, extnameSpec path = []
                                \/ exists after, extnameSpec path = CHAR_DOT :: after).
  { intro path. unfold extnameSpec.
    destruct (splitLastDot (lastComponent path)) as [[before after]|]; [|now left].
    destruct (isEmpty before || str_eqb (lastComponent path) (js ".."));
      [now left | right; now exists after]. }
  rewrite !getExtension_extnameSpec. cbn zeta. intro H.
  destruct (Hshape (pathPart input')) as [E'|[after' E']],
           (Hshape (pathPart input)) as [E|[after E]]; rewrite E, E' in *.
  - reflexivity.
  - destruct (toLowerCase_dot after) as [rest Hrest]. rewrite Hrest in H. discriminate.
  - destruct (toLowerCase_dot after') as [rest Hrest]. rewrite Hrest in H. discriminate.
  - cbn [isEmpty]. now rewrite H.
Qed.

(** Two strings that differ in the case of ASCII letters only have the
    same extension, when that extension is made of ASCII characters. *)
Lemma getExtension_lowerAscii (input input' : jsstring) :
  lowerAscii input' = lowerAscii input ->
  forallb isAscii (extnameSpec (pathPart input)) = true ->
  getExtension h input' = getExtension h input.
Proof.
  intros Hcase Hascii. rewrite <- extname_extnameSpec in Hascii.
  unfold getExtension. rewrite !beforeFirst_pathPart.
  assert (Hext : lowerAscii (extname (pathPart input'))
                 = lowerAscii (extname (pathPart input))).
  { now rewrite <- !extname_lowerAscii, <- !pathPart_lowerAscii, Hcase. }
  assert (Hascii' : forallb isAscii (extname (pathPart input')) = true).
  { now rewrite <- lowerAscii_isAscii, Hext, lowerAscii_isAscii. }
  rewrite (toLowerCase_ascii _ Hascii), (toLowerCase_ascii _ Hascii'), Hext.
  assert (Hempty : isEmpty (extname (pathPart input'))
                   = isEmpty (extname (pathPart input))).
  { unfold lowerAscii in Hext.
    destruct (extname (pathPart input')), (extname (pathPart input));
      try reflexivity; discriminate. }
  now rewrite Hempty.
Qed.
End ClassifierFacts.

(** C6, amended: the extension is taken from the last path component
    of the text before the first [?] or [#] (trailing slashes apart):
    that component from its last dot on, lower-cased, unless the dot
    opens the component or the component is [..], in which case, as
    when the component has no dot, there is no extension; a string is
    supported exactly when that extension is a key of the table.
    Letter case does not count: two strings whose extensions have the
    same lower-casing classify alike, and so do two strings that
    differ in the case of ASCII letters only, when the extension is
    made of ASCII characters, as every key of the table is. *)
Theorem getExtension_characterised
        (W AI Chat : Type) (h : Host W AI Chat) (input : jsstring) :
  getExtension h input
  = (let ext := extnameSpec (pathPart input) in
     if isEmpty ext then None else Some (toLowerCase h ext))
  /\ (supportedExt (getExtension h input) = true <->
      exists ext, getExtension h input = Some ext
                  /\ In ext (map fst SUPPORTED_FILE_TYPES))
  /\ (forall input', toLowerCase h (extnameSpec (pathPart input'))
                     = toLowerCase h (extnameSpec (pathPart input)) ->
                     getExtension h input' = getExtension h input)
  /\ (forall input', lowerAscii input' = lowerAscii input ->
                     forallb isAscii (extnameSpec (pathPart input)) = true ->
                     getExtension h input' = getExtension h input).
Proof.
  split; [|split; [|split]].
  - apply getExtension_extnameSpec.
  - unfold supportedExt. destruct (getExtension h input) as [e|].
    + pose proof (lookup_key SUPPORTED_FILE_TYPES e) as Hkey.
      destruct (lookup SUPPORTED_FILE_TYPES e) as [v|]; split.
      * intros _. exists e. split; [reflexivity | apply Hkey; now exists v].
      * reflexivity.
      * discriminate.
      * intros [e' [He' Hin]]. injection He' as <-.
        apply Hkey in Hin as [v Hv]. discriminate.
    + split; [discriminate | intros [e [He _]]; discriminate].
  - intros input' Hlower. now apply getExtension_same_lower.
  - intros input' Hcase Hascii. now apply getExtension_lowerAscii.
Qed.

Lemma getExtension_characterised_witness :
  lowerAscii (js "Photos/FILE.PDF?x=1") = lowerAscii (js "photos/file.pdf?X=1")
  /\ forallb isAscii (extnameSpec (pathPart (js "photos/file.pdf?X=1"))) = true
  /\ getExtension Demo.host (js "Photos/FILE.PDF?x=1")
     = getExtension Demo.host (js "photos/file.pdf?X=1")
  /\ getExtension Demo.host (js "photos/file.pdf?X=1") = Some (js ".pdf")
  /\ getExtension Demo.host (js "a/FILE.Pdf#top") = getExtension Demo.host (js "file.pDF").
Proof.
  split; [reflexivity|]. split; [reflexivity|]. split; [|split; [reflexivity|]].
  - apply (proj2 (proj2 (proj2 (getExtension_characterised Demo.host
                                  (js "photos/file.pdf?X=1")))));
      reflexivity.
  - apply (proj1 (proj2 (proj2 (getExtension_characterised Demo.host (js "file.pDF")))));
      reflexivity.
Defined.

(** C6 as stated fails: a name that opens with its only dot has no
    extension for the classifier. *)
Lemma getExtension_not_claimedExtension :
  ~ (forall input : jsstring,
        getExtension Demo.host input = claimedExtension Demo.host input)
  /\ forall (W AI Chat : Type) (h : Host W AI Chat),
       getExtension h (js ".pdf") = None
       /\ claimedExtension h (js ".pdf") = Some (toLowerCase h (js ".pdf")).
Proof.
  split.
  - intro H. specialize (H (js ".pdf")). vm_compute in H. discriminate.
  - intros W AI Chat h. split; reflexivity.
Qed.

(** ** The attachment loader *)

Lemma guessMimeType_supported (W AI Chat : Type) (h : Host W AI Chat)
      (path ext guess : jsstring) :
  lookup SUPPORTED_FILE_TYPES ext = Some guess ->
  In (guessMimeType h path ext) (map snd SUPPORTED_FILE_TYPES).
Proof.
  intro H. unfold guessMimeType. rewrite H.
  destruct (getExtension h path) as [e|].
  - destruct (lookup SUPPORTED_FILE_TYPES e) as [m|] eqn:E.
    + eapply lookup_value, E.
    + eapply lookup_value, H.
  - eapply lookup_value, H.
Qed.

Lemma octet_stream_not_in_table :
  ~ In (js "application/octet-stream") (map snd SUPPORTED_FILE_TYPES).
Proof.
  intro H. vm_compute in H.
  repeat (destruct H as [H|H]; [discriminate|]). exact H.
Qed.

Section LoaderFacts.
Context {W AI Chat : Type}.
Variable h : Host W AI Chat.

(** What a reference that is not an HTTP URL loads as. *)
Lemma loadInlineDataPart_local (reference : jsstring) (w w' : W) (part : Part) :
  isHttpUrl h (stripWrappingCharacters reference) = false ->
  loadInlineDataPart h reference w = (Ok (Some part), w') ->
  exists source ext guess filePath bytes,
    extensionSource h (stripWrappingCharacters reference) = Ok source
    /\ getExtension h source = Some ext
    /\ lookup SUPPORTED_FILE_TYPES ext = Some guess
    /\ resolveLocalPath h (stripWrappingCharacters reference) = Ok filePath
    /\ readFile h filePath w = (Ok bytes, w')
    /\ part = InlineData (guessMimeType h filePath ext) (base64 h bytes).
Proof.
  intros Hhttp Hload. unfold loadInlineDataPart, bind, liftR in Hload.
  destruct (extensionSource h (stripWrappingCharacters reference)) as [source|e] eqn:Esrc;
    [|discriminate].
  destruct (getExtension h source) as [ext|] eqn:Eext; [|discriminate].
  destruct (lookup SUPPORTED_FILE_TYPES ext) as [guess|] eqn:Eguess; [|discriminate].
  unfold tryCatch, loadGuarded in Hload. rewrite Hhttp in Hload.
  unfold bind, liftR, ret, effect in Hload.
  destruct (resolveLocalPath h (stripWrappingCharacters reference)) as [filePath|e] eqn:Epath;
    [|discriminate].
  destruct (readFile h filePath w) as [[bytes|e] w1] eqn:Eread; [|discriminate].
  injection Hload as <- <-.
  exists source, ext, guess, filePath, bytes. repeat split; assumption.
Qed.
End LoaderFacts.

(** C10: an attachment made from a local path or a [file://] URL
    carries a media type that is a value of the table; the fallback
    [application/octet-stream] of [guessMimeType] is never taken. *)
Theorem local_attachment_mimeType_in_table
        (W AI Chat : Type) (h : Host W AI Chat)
        (reference : jsstring) (w w' : W) (part : Part) :
  isHttpUrl h (stripWrappingCharacters reference) = false ->
  loadInlineDataPart h reference w = (Ok (Some part), w') ->
  exists mime data,
    part = InlineData mime data
    /\ In mime (map snd SUPPORTED_FILE_TYPES)
    /\ mime <> js "application/octet-stream".
Proof.
  intros Hhttp Hload.
  destruct (@loadInlineDataPart_local _ _ _ h reference w w' part Hhttp Hload)
    as (source & ext & guess & filePath & bytes & _ & _ & Hguess & _ & _ & ->).
  exists (guessMimeType h filePath ext), (base64 h bytes).
  pose proof (@guessMimeType_supported _ _ _ h filePath ext guess Hguess) as Hin.
  repeat split; [assumption|].
  intro E. rewrite E in Hin. exact (octet_stream_not_in_table Hin).
Qed.

Lemma local_attachment_mimeType_in_table_witness :
  exists mime data,
    InlineData (js "application/pdf") (js "JVBERg==") = InlineData mime data
    /\ In mime (map snd SUPPORTED_FILE_TYPES)
    /\ mime <> js "application/octet-stream".
Proof.
  apply (@local_attachment_mimeType_in_table _ _ _ Demo.host (js "(report.pdf).") Demo.world
           (snd (loadInlineDataPart Demo.host (js "(report.pdf).") Demo.world))).
  - reflexivity.
  - reflexivity.
Defined.

(** C4: an HTTP reference fetched with a success status gets the
    media type the table gives for its extension, unless the server
    declares another one: then the text of the Content-Type header
    before its first [;], trimmed, if that is not empty.  A reference
    that is not an HTTP URL gets the type guessed from the resolved
    path, whatever a server would say. *)
Theorem remote_attachment_mimeType
        (W AI Chat : Type) (h : Host W AI Chat) (reference : jsstring) (w : W) :
  (forall source ext guess response w1 body w2,
      extensionSource h (stripWrappingCharacters reference) = Ok source ->
      getExtension h source = Some ext ->
      lookup SUPPORTED_FILE_TYPES ext = Some guess ->
      isHttpUrl h (stripWrappingCharacters reference) = true ->
      fetch h (stripWrappingCharacters reference) w = (Ok response, w1) ->
      ok response = true ->
      arrayBuffer h response w1 = (Ok body, w2) ->
      loadInlineDataPart h reference w
      = (Ok (Some (InlineData
                     (match contentType response with
                      | Some value =>
                          let declared := trim (beforeFirst CHAR_SEMICOLON value) in
                          if negb (isEmpty declared) && negb (str_eqb guess declared)
                          then declared else guess
                      | None => guess
                      end)
                     (base64 h body))), w2))
  /\ (forall part w',
        isHttpUrl h (stripWrappingCharacters reference) = false ->
        loadInlineDataPart h reference w = (Ok (Some part), w') ->
        exists ext filePath bytes,
          resolveLocalPath h (stripWrappingCharacters reference) = Ok filePath
          /\ readFile h filePath w = (Ok bytes, w')
          /\ part = InlineData (guessMimeType h filePath ext) (base64 h bytes)).
Proof.
  split.
  - intros source ext guess response w1 body w2 Hsrc Hext Hguess Hhttp Hfetch Hok Hbody.
    unfold loadInlineDataPart, bind, liftR. rewrite Hsrc, Hext, Hguess.
    unfold tryCatch, loadGuarded. rewrite Hhttp. unfold bind.
    rewrite Hfetch, Hok. cbn [negb]. rewrite Hbody. unfold ret.
    unfold remoteMimeType, headerMime.
    destruct (contentType response); reflexivity.
  - intros part w' Hhttp Hload.
    destruct (@loadInlineDataPart_local _ _ _ h reference w w' part Hhttp Hload)
      as (source & ext & guess & filePath & bytes & _ & _ & _ & Hpath & Hread & ->).
    exists ext, filePath, bytes. repeat split; assumption.
Qed.

Lemma remote_attachment_mimeType_witness :
  loadInlineDataPart Demo.host (js "<http://x.com/logo.svg>") Demo.world
  = (Ok (Some (InlineData (js "text/xml") (js "PHN2Zz4="))),
     snd (Demo.fetch (js "http://x.com/logo.svg") Demo.world))
  /\ exists ext filePath bytes,
       resolveLocalPath Demo.host (js "~/a.png") = Ok filePath
       /\ Demo.readFile filePath Demo.world
          = (Ok bytes, snd (Demo.readFile (js "/home/user/a.png") Demo.world))
       /\ InlineData (js "image/png") (js "CQk=")
          = InlineData (guessMimeType Demo.host filePath ext) (Demo.base64 bytes).
Proof.
  split.
  - apply (proj1 (@remote_attachment_mimeType _ _ _ Demo.host (js "<http://x.com/logo.svg>")
                    Demo.world)
             (js "http://x.com/logo.svg") (js ".svg") (js "image/svg+xml")
             Demo.svgResponse
             (snd (Demo.fetch (js "http://x.com/logo.svg") Demo.world))
             [60; 115; 118; 103; 62]%N); reflexivity.
  - apply (proj2 (@remote_attachment_mimeType _ _ _ Demo.host (js "~/a.png") Demo.world)
             (InlineData (js "image/png") (js "CQk="))
             (snd (Demo.readFile (js "/home/user/a.png") Demo.world))); reflexivity.
Defined.

(** ** The completion aggregator *)

Section AggregatorFacts.
Context {W AI Chat : Type}.
Variable h : Host W AI Chat.
Variables (ai : AI) (chat : Chat) (model : jsstring).

Lemma Answered_length (prompts : list jsstring) (w w' : W) (outcomes : list Outcome) :
  Answered h ai chat model prompts w outcomes w' -> length outcomes = length prompts.
Proof.
  induction 1; simpl; [reflexivity | now f_equal].
Qed.

Lemma runPrompt_tryCatch (prompt : jsstring) (w : W) :
  tryCatch (promptBody h ai chat model prompt)
    (fun error => liftR (mapErrorToCompletion error)) w
  = runPrompt h ai chat model prompt w.
Proof.
  unfold runPrompt, tryCatch, liftR.
  destruct (promptBody h ai chat model prompt w) as [[c|e] w0]; reflexivity.
Qed.

(** The loop over the prompts pushes one outcome for each prompt,
    after the ones it was given, unless the [catch] of a turn throws:
    then the loop ends there with what was thrown. *)
Lemma promptLoop_run (prompts : list jsstring) :
  forall (outputs : list Outcome) (w : W),
    (exists outcomes w',
        Answered h ai chat model prompts w outcomes w'
        /\ promptLoop h ai chat model prompts outputs w = (Ok (outputs ++ outcomes), w'))
    \/ (exists error w',
           Broken h ai chat model prompts w error w'
           /\ promptLoop h ai chat model prompts outputs w = (Throw error, w')).
Proof.
  induction prompts as [|prompt rest IH]; intros outputs w.
  - left. exists [], w. split; [constructor|].
    cbn [promptLoop]. unfold ret. now rewrite app_nil_r.
  - assert (Hstep : promptLoop h ai chat model (prompt :: rest) outputs w
                    = match runPrompt h ai chat model prompt w with
                      | (Ok completion, w1) =>
                          promptLoop h ai chat model rest (outputs ++ [completion]) w1
                      | (Throw error, w1) => (Throw error, w1)
                      end).
    { cbn [promptLoop]. unfold bind. now rewrite runPrompt_tryCatch. }
    rewrite Hstep. clear Hstep.
    destruct (runPrompt h ai chat model prompt w) as [[outcome|error] w1] eqn:Erun.
    + destruct (IH (outputs ++ [outcome]) w1)
        as [(outcomes & w' & Hans & Hloop) | (error & w' & Hbroken & Hloop)].
      * left. exists (outcome :: outcomes), w'. split.
        -- econstructor; eassumption.
        -- rewrite Hloop. now rewrite <- app_assoc.
      * right. exists error, w'. split; [|exact Hloop].
        eapply Broken_later; eassumption.
    + right. exists error, w1. split; [|reflexivity].
      now apply Broken_here.
Qed.

End AggregatorFacts.

Section MainFacts.
Context {W AI Chat : Type}.
Variable h : Host W AI Chat.
Variables (model : jsstring) (prompts : list jsstring).
Variables (properties settings : list (jsstring * JsValue)).

Lemma main_outerCatch (w : W) (error : Thrown) (w1 : W) :
  mainBody h model prompts properties settings w = (Throw error, w1) ->
  main h model prompts properties settings w = outerCatch h error w1.
Proof.
  intro H. unfold main, tryCatch, outerCatch. rewrite H.
  unfold bind, effect, liftR, ret.
  destruct (mapErrorToCompletion error); reflexivity.
Qed.

(** What [main] returns when the setup has succeeded. *)
Lemma main_run (w : W) (ai : AI) (chat : Chat) (w1 : W) :
  setup h model properties settings w = (Ok (ai, chat), w1) ->
  (exists outcomes w',
      Answered h ai chat model prompts w1 outcomes w'
      /\ main h model prompts properties settings w
         = (Ok (mkConnectorResponse outcomes None), w'))
  \/ (exists error w',
         Broken h ai chat model prompts w1 error w'
         /\ main h model prompts properties settings w = outerCatch h error w').
Proof.
  intro Hsetup.
  destruct (promptLoop_run h ai chat model prompts [] w1)
    as [(outcomes & w' & Hans & Hloop) | (error & w' & Hbroken & Hloop)].
  - left. exists outcomes, w'. split; [assumption|].
    unfold main, tryCatch, mainBody, bind. rewrite Hsetup. cbn [fst snd].
    rewrite Hloop. reflexivity.
  - right. exists error, w'. split; [assumption|].
    apply main_outerCatch. unfold mainBody, bind. rewrite Hsetup. cbn [fst snd].
    now rewrite Hloop.
Qed.

(** And when it has not. *)
Lemma main_setup_throws (w : W) (error : Thrown) (w1 : W) :
  setup h model properties settings w = (Throw error, w1) ->
  main h model prompts properties settings w = outerCatch h error w1.
Proof.
  intro Hsetup. apply main_outerCatch. unfold mainBody, bind. now rewrite Hsetup.
Qed.

Lemma main_modelType (w w' : W) (response : ConnectorResponse) :
  main h model prompts properties settings w = (Ok response, w') ->
  ModelType response = None.
Proof.
  unfold main, tryCatch, mainBody, bind, effect, liftR, ret.
  destruct (setup h model properties settings w) as [[[ai chat]|error] w1].
  - cbn [fst snd].
    destruct (promptLoop h ai chat model prompts [] w1) as [[outputs|error] w2].
    + intro H. injection H as <- _. reflexivity.
    + destruct (mapErrorToCompletion error); intro H; [|discriminate].
      injection H as <- _. reflexivity.
  - destruct (mapErrorToCompletion error); intro H; [|discriminate].
    injection H as <- _. reflexivity.
Qed.
End MainFacts.

(** C2 fails on the code: the chat session is set up, the second of
    three prompts makes the client throw a BigInt, [JSON.stringify]
    throws on it in the [catch] of that turn, and [main] answers with
    one completion for the three prompts. *)
Theorem unserializable_error_ends_the_batch :
  fst (setup Demo.host (js "gemini") [] Demo.settings Demo.world)
  = Ok (js "secret", js "gemini")
  /\ fst (main Demo.host (js "gemini") [js "hello"; js "bigint"; js "hello"]
            [] Demo.settings Demo.world)
     = Ok (mkConnectorResponse
             [ErrorCompletion (js "Do not know how to serialize a BigInt")] None).
Proof. split; reflexivity. Qed.

(** C9: a response of [main] never carries a ModelType, neither
    after the loop nor after a failure of the setup. *)
Theorem main_modelType_absent
        (W AI Chat : Type) (h : Host W AI Chat)
        (model : jsstring) (prompts : list jsstring)
        (properties settings : list (jsstring * JsValue))
        (w w' : W) (response : ConnectorResponse) :
  main h model prompts properties settings w = (Ok response, w') ->
  ModelType response = None.
Proof. apply main_modelType. Qed.

Lemma main_modelType_absent_witness :
  ModelType (mkConnectorResponse
               [Completion (js "parts: 1") (Some 1%N); ErrorCompletion (js "model error")]
               None) = None.
Proof.
  apply (@main_modelType_absent _ _ _ Demo.host (js "gemini") [js "hello"; js "boom"]
           [] Demo.settings Demo.world
           (snd (main Demo.host (js "gemini") [js "hello"; js "boom"]
                   [] Demo.settings Demo.world))).
  reflexivity.
Defined.

(** ** The reference scanner: the set of references as a list *)

Lemma filter_filter_absorb (A : Type) (p q : A -> bool) (l : list A) :
  (forall x, p x = true -> q x = true) -> filter p (filter q l) = filter p l.
Proof.
  intro H. induction l as [|x l IH]; simpl; [reflexivity|].
  destruct (q x) eqn:Eq; simpl.
  - now rewrite IH.
  - destruct (p x) eqn:Ep; [|exact IH].
    apply H in Ep. congruence.
Qed.

Lemma filter_filter_and (A : Type) (p q : A -> bool) (l : list A) :
  filter p (filter q l) = filter (fun x => q x && p x) l.
Proof.
  induction l as [|x l IH]; simpl; [reflexivity|].
  destruct (q x); simpl; [|exact IH].
  destruct (p x); now rewrite IH.
Qed.

Lemma existsb_str_eqb_In (x : jsstring) (l : list jsstring) :
  existsb (str_eqb x) l = true <-> In x l.
Proof.
  rewrite existsb_exists. split.
  - intros [y [Hin Heq]]. apply str_eqb_eq in Heq. now subst.
  - intro H. exists x. split; [assumption | apply str_eqb_refl].
Qed.

(** Adding the strings of [l] one by one to the set [refs] appends
    the ones that are new, each at its first occurrence. *)
Lemma fold_setAdd_nub (l : list jsstring) :
  forall refs,
    fold_left (fun acc x => setAdd x acc) l refs = refs ++ filter (notIn refs) (nub l).
Proof.
  induction l as [|x l IH]; intro refs.
  - simpl. now rewrite app_nil_r.
  - cbn [fold_left nub filter]. rewrite IH. unfold setAdd.
    replace (notIn refs x) with (negb (existsb (str_eqb x) refs)) by reflexivity.
    destruct (existsb (str_eqb x) refs) eqn:E; cbn [negb].
    + f_equal. symmetry. apply filter_filter_absorb.
      intros y Hy. unfold notIn in Hy. apply negb_true_iff in Hy.
      apply negb_true_iff. apply str_eqb_neq. intros ->. congruence.
    + rewrite <- app_assoc. cbn [app]. do 2 f_equal.
      rewrite filter_filter_and. apply filter_ext. intro y.
      unfold notIn. rewrite existsb_app. cbn [existsb].
      rewrite orb_false_r, negb_orb, (str_eqb_sym y x). apply andb_comm.
Qed.

Lemma filter_notIn_nil (l : list jsstring) : filter (notIn []) l = l.
Proof.
  induction l as [|x l IH]; simpl; [reflexivity | now f_equal].
Qed.

Lemma nub_In (l : list jsstring) (x : jsstring) : In x (nub l) <-> In x l.
Proof.
  induction l as [|y l IH]; simpl; [tauto|].
  rewrite filter_In, IH. split.
  - intros [H|[H _]]; auto.
  - intros [H|H]; [now left|].
    destruct (str_eqb y x) eqn:E.
    + apply str_eqb_eq in E. now left.
    + right. split; [assumption | reflexivity].
Qed.

Lemma nub_NoDup (l : list jsstring) : NoDup (nub l).
Proof.
  induction l as [|x l IH]; simpl; constructor.
  - rewrite filter_In. intros [_ H]. now rewrite str_eqb_refl in H.
  - now apply NoDup_filter.
Qed.

Section ScannerFacts.
Context {W AI Chat : Type}.
Variable h : Host W AI Chat.

Lemma tokenPass_acceptedTokens (tokens : list jsstring) :
  forall refs,
    tokenPass h tokens refs
    = fold_left (fun acc x => setAdd x acc) (acceptedTokens h tokens) refs.
Proof.
  induction tokens as [|rawToken rest IH]; intro refs; [reflexivity|].
  cbn [tokenPass acceptedTokens].
  destruct (isEmpty (stripWrappingCharacters rawToken)
            || isHttpUrl h (stripWrappingCharacters rawToken)
            || isFileUrl h (stripWrappingCharacters rawToken)); cbn [negb andb].
  - apply IH.
  - destruct (supportedExt (getExtension h (stripWrappingCharacters rawToken)));
      cbn [fold_left]; apply IH.
Qed.

Lemma remotePass_acceptedLinks (matches : list jsstring) :
  forall refs,
    remotePass h matches refs
    = bindR (acceptedLinks h matches)
            (fun links => Ok (fold_left (fun acc x => setAdd x acc) links refs)).
Proof.
  induction matches as [|rawMatch rest IH]; intro refs; [reflexivity|].
  cbn [remotePass acceptedLinks].
  destruct (extensionSource h (stripWrappingCharacters rawMatch)) as [source|e];
    [|reflexivity].
  cbn [bindR]. rewrite IH.
  destruct (acceptedLinks h rest) as [links|e]; [|reflexivity].
  cbn [bindR].
  destruct (supportedExt (getExtension h source)); reflexivity.
Qed.

(** The references are the accepted link candidates, then the
    accepted tokens, without the repetitions. *)
Lemma extractFileReferences_nub (text : jsstring) (refs : list jsstring) :
  extractFileReferences h text = Ok refs ->
  exists links,
    acceptedLinks h (remoteMatches text) = Ok links
    /\ refs = nub (links ++ acceptedTokens h (splitWhitespace text)).
Proof.
  unfold extractFileReferences. rewrite remotePass_acceptedLinks.
  destruct (acceptedLinks h (remoteMatches text)) as [links|e]; [|discriminate].
  cbn [bindR]. intro H. injection H as <-.
  exists links. split; [reflexivity|].
  rewrite tokenPass_acceptedTokens, <- fold_left_app, fold_setAdd_nub.
  cbn [app]. apply filter_notIn_nil.
Qed.
End ScannerFacts.

(** ** The message part builder *)

Section BuilderFacts.
Context {W AI Chat : Type}.
Variable h : Host W AI Chat.
Variable load : jsstring -> M W (option Part).

Lemma loadLoop_Loaded (refs : list jsstring) :
  forall (inlineParts parts : list Part) (w w' : W),
    loadLoop load refs inlineParts w = (Ok parts, w') ->
    exists attachments,
      Loaded load refs w attachments w' /\ parts = inlineParts ++ attachments.
Proof.
  induction refs as [|r rest IH]; intros inlineParts parts w w' H.
  - cbn [loadLoop] in H. unfold ret in H. injection H as <- <-.
    exists []. split; [constructor | now rewrite app_nil_r].
  - cbn [loadLoop] in H. unfold bind in H.
    destruct (load r w) as [[[p|]|e] w1] eqn:Eload; [| |discriminate].
    + apply IH in H as (attachments & Hloaded & ->).
      exists (p :: attachments). split.
      * eapply Loaded_part; eassumption.
      * now rewrite <- app_assoc.
    + apply IH in H as (attachments & Hloaded & ->).
      exists attachments. split; [|reflexivity].
      eapply Loaded_none; eassumption.
Qed.

Lemma Loaded_loadLoop (refs : list jsstring) (w w' : W) (attachments : list Part) :
  Loaded load refs w attachments w' ->
  forall inlineParts,
    loadLoop load refs inlineParts w = (Ok (inlineParts ++ attachments), w').
Proof.
  induction 1 as [w|r rest w p w1 parts w2 Hload _ IH|r rest w w1 parts w2 Hload _ IH];
    intro inlineParts; cbn [loadLoop].
  - unfold ret. now rewrite app_nil_r.
  - unfold bind. rewrite Hload, IH. now rewrite <- app_assoc.
  - unfold bind. rewrite Hload. apply IH.
Qed.

Lemma buildMessagePartsWith_parts (prompt : jsstring) (w w' : W) (parts : list Part) :
  buildMessagePartsWith h load prompt w = (Ok parts, w') ->
  exists refs attachments,
    extractFileReferences h prompt = Ok refs
    /\ Loaded load refs w attachments w'
    /\ parts = TextPart prompt :: attachments.
Proof.
  unfold buildMessagePartsWith, bind, liftR. intro H.
  destruct (extractFileReferences h prompt) as [refs|e]; [|discriminate].
  exists refs. destruct refs as [|r rest].
  - unfold ret in H. injection H as <- <-.
    exists []. repeat split. constructor.
  - destruct (loadLoop load (r :: rest) [] w) as [[inlineParts|e] w1] eqn:Eloop;
      [|discriminate].
    unfold ret in H. injection H as <- <-.
    apply loadLoop_Loaded in Eloop as (attachments & Hloaded & ->).
    exists attachments. repeat split. assumption.
Qed.

(** Without a reference the builder returns the text alone and
    leaves the world as it is. *)
Lemma buildMessagePartsWith_text_only (prompt : jsstring) (w : W) :
  extractFileReferences h prompt = Ok [] ->
  buildMessagePartsWith h load prompt w = (Ok [TextPart prompt], w).
Proof.
  intro H. unfold buildMessagePartsWith, bind, liftR. now rewrite H.
Qed.
End BuilderFacts.

(** ** Exceptions that leave the loader and the builder *)

Section EscapeFacts.
Context {W AI Chat : Type}.
Variable h : Host W AI Chat.

(** Once the extension of the reference is derived, the loader
    returns: whatever fails later is caught and gives no attachment. *)
Lemma loadInlineDataPart_guarded (reference source : jsstring) (w : W) :
  extensionSource h (stripWrappingCharacters reference) = Ok source ->
  exists result w', loadInlineDataPart h reference w = (Ok result, w').
Proof.
  intro Hsrc. unfold loadInlineDataPart, bind, liftR. rewrite Hsrc.
  destruct (getExtension h source) as [ext|]; [|unfold ret; eauto].
  destruct (lookup SUPPORTED_FILE_TYPES ext) as [guess|]; [|unfold ret; eauto].
  unfold tryCatch.
  destruct (loadGuarded h (stripWrappingCharacters reference) ext guess w)
    as [[result|e] w1]; [eauto|].
  unfold bind, effect, ret. eauto.
Qed.

(** The derivation itself stands before the [try]: what it throws
    leaves the loader. *)
Lemma loadInlineDataPart_escape (reference : jsstring) (e : Thrown) (w : W) :
  extensionSource h (stripWrappingCharacters reference) = Throw e ->
  loadInlineDataPart h reference w = (Throw e, w).
Proof.
  intro Hsrc. unfold loadInlineDataPart, bind, liftR. now rewrite Hsrc.
Qed.

Lemma buildMessageParts_escape (prompt : jsstring) (e : Thrown) (w : W) :
  extractFileReferences h prompt = Throw e ->
  buildMessageParts h prompt w = (Throw e, w).
Proof.
  intro H. unfold buildMessageParts, buildMessagePartsWith, bind, liftR.
  now rewrite H.
Qed.

Lemma runPrompt_escape (ai : AI) (chat : Chat) (model prompt : jsstring)
      (e : Thrown) (w w' : W) :
  buildMessageParts h prompt w = (Throw e, w') ->
  runPrompt h ai chat model prompt w = (mapErrorToCompletion e, w').
Proof.
  intro H. unfold runPrompt, promptBody, bind. now rewrite H.
Qed.

(** The references of a prompt hold no string twice. *)
Lemma extractFileReferences_NoDup (text : jsstring) (refs : list jsstring) :
  extractFileReferences h text = Ok refs -> NoDup refs.
Proof.
  intro H. apply extractFileReferences_nub in H as (links & _ & ->).
  apply nub_NoDup.
Qed.

(** A list of parts that the builder returns opens with the text. *)
Lemma buildMessageParts_text_first (prompt : jsstring) (w w' : W) (parts : list Part) :
  buildMessageParts h prompt w = (Ok parts, w') ->
  hd_error parts = Some (TextPart prompt).
Proof.
  intro H. unfold buildMessageParts in H.
  apply buildMessagePartsWith_parts in H as (refs & attachments & _ & _ & ->).
  reflexivity.
Qed.
End EscapeFacts.

(** C1, at its failing input: the URL of the reference
    [file://<x>/a.pdf] does not parse; the second pass takes the token
    as a path with a supported extension, the loader parses it before
    its [try], the exception leaves the loader and the builder, and the
    completion of the prompt is an ErrorCompletion. *)
Theorem malformed_file_url_fails_the_prompt :
  extractFileReferences Demo.host (js "file://<x>/a.pdf") = Ok [js "file://<x>/a.pdf"]
  /\ loadInlineDataPart Demo.host (js "file://<x>/a.pdf") Demo.world
     = (Throw (ErrorObject (js "Invalid URL")), Demo.world)
  /\ fst (main Demo.host (js "gemini") [js "file://<x>/a.pdf"] []
            Demo.settings Demo.world)
     = Ok (mkConnectorResponse [ErrorCompletion (js "Invalid URL")] None).
Proof. repeat split. Qed.

(** C7, at its failing input: the prompt names [b.png] twice and the
    scanner returns it once, but the loader is never called for it:
    the call for the reference before it throws and ends the loop. *)
Theorem loader_not_called_after_an_escape :
  extractFileReferences Demo.host (js "file://<x>/a.pdf b.png b.png")
  = Ok [js "file://<x>/a.pdf"; js "b.png"]
  /\ loadLoop (recording (loadInlineDataPart Demo.host))
       [js "file://<x>/a.pdf"; js "b.png"] [] (Demo.world, [])
     = (Throw (ErrorObject (js "Invalid URL")), (Demo.world, [js "file://<x>/a.pdf"]))
  /\ buildMessageParts Demo.host (js "file://<x>/a.pdf b.png b.png") Demo.world
     = (Throw (ErrorObject (js "Invalid URL")), Demo.world).
Proof. repeat split. Qed.

(** C8, at its failing input: the prompt holds no candidate with a
    supported extension, its only link ends in [.txt], and yet the
    builder returns no part at all: turning the link into a path throws
    in the scanner, outside of any [try] of the builder. *)
Theorem builder_throws_on_a_text_only_prompt :
  remoteMatches (js "see file:///notes%2Fa.txt") = [js "file:///notes%2Fa.txt"]
  /\ supportedExt (getExtension Demo.host (js "file:///notes%2Fa.txt")) = false
  /\ acceptedTokens Demo.host (splitWhitespace (js "see file:///notes%2Fa.txt")) = []
  /\ buildMessageParts Demo.host (js "see file:///notes%2Fa.txt") Demo.world
     = (Throw (ErrorObject (js "File URL path must not include encoded / characters")),
        Demo.world).
Proof. repeat split. Qed.


(** ** The candidates of the scanner are normalized *)

Lemma takeWhile_forallb (A : Type) (p : A -> bool) (l : list A) :
  forallb p (takeWhile p l) = true.
Proof.
  induction l as [|x l IH]; simpl; [reflexivity|].
  destruct (p x) eqn:E; simpl; [now rewrite E | reflexivity].
Qed.

Lemma forallb_weaken (A : Type) (p q : A -> bool) (l : list A) :
  (forall x, p x = true -> q x = true) -> forallb p l = true -> forallb q l = true.
Proof.
  intros H Hl. apply forallb_forall. intros x Hx.
  apply H. revert x Hx. now apply forallb_forall.
Qed.

Lemma canonicalize_whitespace (c : char) :
  isWhitespace c = true -> canonicalize c = c.
Proof.
  intro H. unfold canonicalize.
  destruct (isLower c) eqn:E; [|reflexivity].
  exfalso. unfold isLower in E. apply andb_true_iff in E as [E1 E2].
  apply N.leb_le in E1, E2. unfold isWhitespace in H.
  repeat (apply orb_true_iff in H as [H|H]);
    try (apply andb_true_iff in H as [H1 H2]; apply N.leb_le in H1, H2; lia);
    try (apply N.eqb_eq in H; lia).
Qed.

(** A string that opens, letter case apart, with a prefix free of
    white space has no white space in that opening. *)
Lemma ciStartsWith_noWhitespace (prefix : jsstring) :
  noWhitespace (map canonicalize prefix) = true ->
  forall s, ciStartsWith s prefix = true ->
            noWhitespace (firstn (length prefix) s) = true.
Proof.
  unfold ciStartsWith.
  induction prefix as [|x prefix IH]; intros Hp s Hs; [reflexivity|].
  destruct s as [|c s]; [discriminate|].
  cbn [map startsWith] in Hs. apply andb_true_iff in Hs as [Hx Hs].
  apply N.eqb_eq in Hx.
  cbn [map noWhitespace forallb] in Hp. apply andb_true_iff in Hp as [Hpx Hp].
  cbn [length firstn]. unfold noWhitespace. cbn [forallb].
  fold (noWhitespace (firstn (length prefix) s)).
  rewrite (IH Hp s Hs), andb_true_r.
  destruct (isWhitespace c) eqn:Ec; [|reflexivity].
  rewrite Hx, (canonicalize_whitespace c Ec), Ec in Hpx. discriminate.
Qed.

Lemma noWhitespace_app (a b : jsstring) :
  noWhitespace (a ++ b) = noWhitespace a && noWhitespace b.
Proof. apply forallb_app. Qed.

Lemma matchLinkAt_noWhitespace (s m : jsstring) :
  matchLinkAt s = Some m -> noWhitespace m = true.
Proof.
  unfold matchLinkAt. intro H.
  assert (Hbody : forall k, noWhitespace (takeWhile isLinkChar (skipn k s)) = true).
  { intro k. eapply forallb_weaken; [|apply takeWhile_forallb].
    intros c Hc. unfold isLinkChar in Hc. rewrite negb_orb in Hc.
    now apply andb_true_iff in Hc as [Hc _]. }
  assert (Hcut : exists prefix,
             ciStartsWith s prefix = true
             /\ noWhitespace (map canonicalize prefix) = true
             /\ m = firstn (length prefix) s
                    ++ takeWhile isLinkChar (skipn (length prefix) s)).
  { destruct (ciStartsWith s (js "https://")) eqn:E1;
      [|destruct (ciStartsWith s (js "http://")) eqn:E2;
        [|destruct (ciStartsWith s (js "file://")) eqn:E3; [|discriminate]]];
      cbv beta iota zeta in H;
      match type of H with
      | (if isEmpty ?body then _ else _) = _ =>
          destruct (isEmpty body); [discriminate | injection H as <-]
      end.
    - exists (js "https://"). repeat split; assumption || reflexivity.
    - exists (js "http://"). repeat split; assumption || reflexivity.
    - exists (js "file://"). repeat split; assumption || reflexivity. }
  destruct Hcut as (prefix & Hstart & Hprefix & ->).
  rewrite noWhitespace_app, Hbody, andb_true_r.
  now apply ciStartsWith_noWhitespace.
Qed.

Lemma scanLinks_noWhitespace (s : jsstring) :
  forall skip prev, Forall (fun m => noWhitespace m = true) (scanLinks skip prev s).
Proof.
  induction s as [|c s IH]; intros skip prev; cbn [scanLinks]; [constructor|].
  destruct skip; [|apply IH].
  destruct (wordBoundary prev c); [|apply IH].
  destruct (matchLinkAt (c :: s)) as [m|] eqn:E; [|apply IH].
  constructor; [eapply matchLinkAt_noWhitespace, E | apply IH].
Qed.

Lemma noWhitespace_rev (s : jsstring) : noWhitespace (rev s) = noWhitespace s.
Proof.
  unfold noWhitespace.
  destruct (forallb (fun c => negb (isWhitespace c)) s) eqn:E.
  - apply forallb_forall. intros x Hx. apply in_rev in Hx.
    revert x Hx. now apply forallb_forall.
  - destruct (forallb (fun c => negb (isWhitespace c)) (rev s)) eqn:E'; [|reflexivity].
    rewrite <- E. symmetry. apply forallb_forall. intros x Hx.
    apply in_rev in Hx. revert x Hx. now apply forallb_forall.
Qed.

Lemma splitLoop_noWhitespace (s : jsstring) :
  forall cur inRun, noWhitespace cur = true ->
    Forall (fun t => noWhitespace t = true) (splitLoop cur inRun s).
Proof.
  induction s as [|c s IH]; intros cur inRun Hcur; cbn [splitLoop].
  - constructor; [now rewrite noWhitespace_rev | constructor].
  - destruct (isWhitespace c) eqn:Ec.
    + destruct inRun; [now apply IH|].
      constructor; [now rewrite noWhitespace_rev | now apply IH].
    + apply IH. unfold noWhitespace. cbn [forallb]. now rewrite Ec.
Qed.

Section NormalizedFacts.
Context {W AI Chat : Type}.
Variable h : Host W AI Chat.

Lemma acceptedLinks_In (matches links : list jsstring) (r : jsstring) :
  acceptedLinks h matches = Ok links -> In r links ->
  exists rawMatch, In rawMatch matches /\ r = stripWrappingCharacters rawMatch.
Proof.
  revert links. induction matches as [|rawMatch rest IH]; intros links H Hin.
  - injection H as <-. contradiction.
  - cbn [acceptedLinks] in H.
    destruct (extensionSource h (stripWrappingCharacters rawMatch)) as [source|e];
      [|discriminate].
    cbn [bindR] in H.
    destruct (acceptedLinks h rest) as [accepted|e]; [|discriminate].
    cbn [bindR] in H. injection H as <-.
    assert (Hcases : r = stripWrappingCharacters rawMatch \/ In r accepted).
    { destruct (supportedExt (getExtension h source)); [|now right].
      destruct Hin as [<-|Hin]; [now left | now right]. }
    destruct Hcases as [->|Hacc].
    + exists rawMatch. split; [now left | reflexivity].
    + destruct (IH accepted eq_refl Hacc) as (raw & Hraw & ->).
      exists raw. split; [now right | reflexivity].
Qed.

Lemma acceptedTokens_In (tokens : list jsstring) (r : jsstring) :
  In r (acceptedTokens h tokens) ->
  exists rawToken, In rawToken tokens /\ r = stripWrappingCharacters rawToken.
Proof.
  induction tokens as [|rawToken rest IH]; intro Hin; [contradiction|].
  cbn [acceptedTokens] in Hin.
  assert (Hcases : r = stripWrappingCharacters rawToken \/ In r (acceptedTokens h rest)).
  { destruct (negb (isEmpty (stripWrappingCharacters rawToken)
                    || isHttpUrl h (stripWrappingCharacters rawToken)
                    || isFileUrl h (stripWrappingCharacters rawToken))
              && supportedExt (getExtension h (stripWrappingCharacters rawToken)));
      [|now right].
    destruct Hin as [<-|Hin]; [now left | now right]. }
  destruct Hcases as [->|Hacc].
  - exists rawToken. split; [now left | reflexivity].
  - destruct (IH Hacc) as (raw & Hraw & ->).
    exists raw. split; [now right | reflexivity].
Qed.

(** Every reference the scanner returns is free of white space and
    is its own normal form: the loader, which normalizes again, works
    on the very string it is given. *)
Lemma extractFileReferences_normalized (text : jsstring) (refs : list jsstring) :
  extractFileReferences h text = Ok refs ->
  forall r, In r refs ->
    noWhitespace r = true /\ stripWrappingCharacters r = r.
Proof.
  intros H r Hin.
  apply extractFileReferences_nub in H as (links & Hlinks & ->).
  apply nub_In, in_app_or in Hin.
  assert (Hraw : exists raw, noWhitespace raw = true /\ r = stripWrappingCharacters raw).
  { destruct Hin as [Hin|Hin].
    - destruct (@acceptedLinks_In _ _ r Hlinks Hin) as (raw & Hraw & ->).
      exists raw. split; [|reflexivity].
      pose proof (scanLinks_noWhitespace text 0 None) as Hall.
      rewrite Forall_forall in Hall. now apply Hall.
    - destruct (@acceptedTokens_In _ r Hin) as (raw & Hraw & ->).
      exists raw. split; [|reflexivity].
      pose proof (@splitLoop_noWhitespace text [] false eq_refl) as Hall.
      rewrite Forall_forall in Hall. now apply Hall. }
  destruct Hraw as (raw & Hws & ->). split.
  - now apply stripWrappingCharacters_noWhitespace.
  - (* the amended idempotence, from its two halves *)
    destruct (stripWrappingCharacters_fixed raw Hws) as [Hopen Hclose].
    rewrite (stripWrappingCharacters_dropWhileEnd (stripWrappingCharacters raw)).
    rewrite (trim_noWhitespace _ (stripWrappingCharacters_noWhitespace raw Hws)).
    now rewrite Hopen.
Qed.
End NormalizedFacts.

(** * Further properties of the connector *)

(** ** Occurrences of one string in another *)

Lemma isInfix_refl (s : jsstring) : isInfix s s.
Proof. exists [], []. now rewrite app_nil_r. Qed.

Lemma isInfix_trans (a b c : jsstring) : isInfix a b -> isInfix b c -> isInfix a c.
Proof.
  intros (p1 & q1 & ->) (p2 & q2 & ->).
  exists (p2 ++ p1), (q1 ++ q2). now rewrite <- !app_assoc.
Qed.

Lemma isInfix_cons (a s : jsstring) (c : char) : isInfix a s -> isInfix a (c :: s).
Proof. intros (p & q & ->). now exists (c :: p), q. Qed.

Lemma isInfix_app_r (a s pre : jsstring) : isInfix a s -> isInfix a (pre ++ s).
Proof.
  intros (p & q & ->). exists (pre ++ p), q. now rewrite <- app_assoc.
Qed.

Lemma isInfix_app_l (a s post : jsstring) : isInfix a s -> isInfix a (s ++ post).
Proof.
  intros (p & q & ->). exists p, (q ++ post). now rewrite <- !app_assoc.
Qed.

Lemma startsWith_prefix (prefix : jsstring) :
  forall s, startsWith s prefix = true <-> exists rest, s = prefix ++ rest.
Proof.
  induction prefix as [|x prefix IH]; intro s.
  - split; [intros _; now exists s | intros _; now destruct s].
  - destruct s as [|c s]; cbn [startsWith].
    + split; [discriminate | intros [rest H]; discriminate].
    + rewrite andb_true_iff, N.eqb_eq, IH. split.
      * intros [-> [rest ->]]. now exists rest.
      * intros [rest H]. injection H as -> ->. split; [reflexivity | now exists rest].
Qed.

Lemma startsWith_isInfix (s prefix : jsstring) :
  startsWith s prefix = true -> isInfix prefix s.
Proof.
  intro H. apply startsWith_prefix in H as [rest ->]. now exists [], rest.
Qed.

Lemma indexOf_None (needle : jsstring) :
  forall text, indexOf needle text = None -> ~ isInfix needle text.
Proof.
  intros text H (before & after & ->). revert H.
  induction before as [|c before IH].
  - cbn [app].
    assert (Hs : startsWith (needle ++ after) needle = true)
      by (apply startsWith_prefix; now exists after).
    destruct needle, after; cbn [indexOf app] in *; try rewrite Hs; discriminate.
  - cbn [app indexOf].
    destruct (startsWith (c :: before ++ needle ++ after) needle); [discriminate|].
    destruct (indexOf needle (before ++ needle ++ after)); [discriminate|].
    intros _. now apply IH.
Qed.

Lemma dropWhile_isInfix (p : char -> bool) (s : jsstring) : isInfix (dropWhile p s) s.
Proof.
  exists (takeWhile p s), []. rewrite app_nil_r. symmetry. apply takeWhile_dropWhile.
Qed.

Lemma dropWhileEnd_prefix (p : char -> bool) (s : jsstring) :
  exists rest, s = dropWhileEnd p s ++ rest.
Proof.
  induction s as [|c s [rest IH]]; [now exists []|].
  cbn [dropWhileEnd]. destruct (dropWhileEnd p s) as [|d t].
  - destruct (p c); [now exists (c :: s) | exists s; reflexivity].
  - exists rest. cbn [app]. f_equal. exact IH.
Qed.

Lemma dropWhileEnd_isInfix (p : char -> bool) (s : jsstring) :
  isInfix (dropWhileEnd p s) s.
Proof.
  destruct (dropWhileEnd_prefix p s) as [rest H]. now exists [], rest.
Qed.

Lemma stripWrappingCharacters_isInfix (s : jsstring) :
  isInfix (stripWrappingCharacters s) s.
Proof.
  rewrite stripWrappingCharacters_dropWhileEnd. unfold trim.
  eapply isInfix_trans; [apply dropWhileEnd_isInfix|].
  eapply isInfix_trans; [apply dropWhile_isInfix|].
  eapply isInfix_trans; [apply dropWhileEnd_isInfix|].
  apply dropWhile_isInfix.
Qed.

Lemma matchLinkAt_prefix (s m : jsstring) :
  matchLinkAt s = Some m -> exists rest, s = m ++ rest.
Proof.
  unfold matchLinkAt. intro H.
  assert (Hcut : forall k, isEmpty (takeWhile isLinkChar (skipn k s)) = false ->
                           exists rest, s = (firstn k s ++ takeWhile isLinkChar (skipn k s)) ++ rest).
  { intros k _. exists (dropWhile isLinkChar (skipn k s)).
    now rewrite <- app_assoc, takeWhile_dropWhile, firstn_skipn. }
  destruct (ciStartsWith s (js "https://"));
    [|destruct (ciStartsWith s (js "http://"));
      [|destruct (ciStartsWith s (js "file://")); [|discriminate]]];
    cbv beta iota zeta in H;
    match type of H with
    | (if isEmpty ?body then _ else _) = _ =>
        destruct (isEmpty body) eqn:E; [discriminate | injection H as <-]
    end; first [exact (Hcut 8%nat E) | exact (Hcut 7%nat E)].
Qed.

Lemma scanLinks_isInfix (s : jsstring) :
  forall skip prev m, In m (scanLinks skip prev s) -> isInfix m s.
Proof.
  induction s as [|c s IH]; intros skip prev m Hin; cbn [scanLinks] in Hin;
    [contradiction|].
  destruct skip; [|eapply isInfix_cons, IH, Hin].
  destruct (wordBoundary prev c); [|eapply isInfix_cons, IH, Hin].
  destruct (matchLinkAt (c :: s)) as [m'|] eqn:E; [|eapply isInfix_cons, IH, Hin].
  destruct Hin as [<-|Hin]; [|eapply isInfix_cons, IH, Hin].
  apply matchLinkAt_prefix in E as [rest E]. rewrite E. now exists [], rest.
Qed.

Lemma splitLoop_isInfix (s : jsstring) :
  forall cur inRun t,
    (inRun = true -> cur = []) ->
    In t (splitLoop cur inRun s) -> isInfix t (rev cur ++ s).
Proof.
  induction s as [|c s IH]; intros cur inRun t Hrun Hin; cbn [splitLoop] in Hin.
  - destruct Hin as [<-|[]]. rewrite app_nil_r. apply isInfix_refl.
  - destruct (isWhitespace c).
    + destruct inRun.
      * rewrite (Hrun eq_refl) in *. cbn [rev app].
        apply isInfix_cons. now apply (IH [] true t).
      * destruct Hin as [<-|Hin].
        -- apply isInfix_app_l, isInfix_refl.
        -- apply isInfix_app_r, isInfix_cons. now apply (IH [] true t).
    + replace (rev cur ++ c :: s) with (rev (c :: cur) ++ s)
        by (cbn [rev]; now rewrite <- app_assoc).
      apply (IH (c :: cur) false t); [discriminate | assumption].
Qed.

Lemma remoteMatches_isInfix (text m : jsstring) :
  In m (remoteMatches text) -> isInfix m text.
Proof. apply scanLinks_isInfix. Qed.

Lemma splitWhitespace_isInfix (text t : jsstring) :
  In t (splitWhitespace text) -> isInfix t text.
Proof.
  intro H. apply (@splitLoop_isInfix text [] false t); [discriminate | exact H].
Qed.

(** A text without [file://] has no candidate that opens with it. *)
Lemma candidate_without_file_scheme (text raw : jsstring) :
  indexOf (js "file://") text = None ->
  isInfix raw text ->
  startsWith (stripWrappingCharacters raw) (js "file://") = false.
Proof.
  intros Hnone Hraw.
  destruct (startsWith (stripWrappingCharacters raw) (js "file://")) eqn:E;
    [|reflexivity].
  exfalso. apply (@indexOf_None _ _ Hnone).
  eapply isInfix_trans; [apply startsWith_isInfix, E|].
  eapply isInfix_trans; [apply stripWrappingCharacters_isInfix | exact Hraw].
Qed.

(** ** The order of the references *)

Lemma Scattered_cons_char (pieces : list jsstring) (text : jsstring) (c : char) :
  Scattered pieces text -> Scattered pieces (c :: text).
Proof.
  intro H. destruct H as [text|gap piece pieces rest H]; [constructor|].
  change (c :: gap ++ piece ++ rest) with ((c :: gap) ++ piece ++ rest).
  now constructor.
Qed.

Lemma Scattered_app_l (pieces : list jsstring) (text pre : jsstring) :
  Scattered pieces text -> Scattered pieces (pre ++ text).
Proof.
  intro H. induction pre as [|c pre IH]; [exact H|].
  cbn [app]. now apply Scattered_cons_char.
Qed.

(** A piece may be left out, and a piece may be cut down to a piece
    of itself: the others keep their places. *)
Lemma Scattered_skip (gap piece : jsstring) (pieces : list jsstring) (rest : jsstring) :
  Scattered pieces rest -> Scattered pieces (gap ++ piece ++ rest).
Proof. intro H. now do 2 apply Scattered_app_l. Qed.

Lemma Scattered_trim (gap piece part : jsstring) (pieces : list jsstring) (rest : jsstring) :
  isInfix part piece -> Scattered pieces rest ->
  Scattered (part :: pieces) (gap ++ piece ++ rest).
Proof.
  intros (before & after & ->) H.
  replace (gap ++ (before ++ part ++ after) ++ rest)
    with ((gap ++ before) ++ part ++ (after ++ rest))
    by now rewrite <- !app_assoc.
  constructor. now apply Scattered_app_l.
Qed.

Lemma matchLinkAt_not_empty (s : jsstring) : matchLinkAt s <> Some [].
Proof.
  unfold matchLinkAt. intro H.
  assert (Hcut : forall k, isEmpty (takeWhile isLinkChar (skipn k s)) = false ->
                           firstn k s ++ takeWhile isLinkChar (skipn k s) <> []).
  { intros k E Happ. apply app_eq_nil in Happ as [_ Hbody].
    rewrite Hbody in E. discriminate. }
  destruct (ciStartsWith s (js "https://"));
    [|destruct (ciStartsWith s (js "http://"));
      [|destruct (ciStartsWith s (js "file://")); [|discriminate]]];
    cbv beta iota zeta in H;
    match type of H with
    | (if isEmpty ?body then _ else _) = _ =>
        destruct (isEmpty body) eqn:E; [discriminate | injection H as H]
    end; first [exact (Hcut 8%nat E H) | exact (Hcut 7%nat E H)].
Qed.

(** The matches of the link pattern stand in the text from left to
    right, each one after the end of the one before. *)
Lemma scanLinks_Scattered (s : jsstring) :
  forall skip prev, Scattered (scanLinks skip prev s) (skipn skip s).
Proof.
  induction s as [|c s IH]; intros skip prev.
  - cbn [scanLinks]. constructor.
  - destruct skip as [|k]; cbn [scanLinks skipn]; [|apply IH].
    assert (Hnone : Scattered (scanLinks 0 (Some c) s) (c :: s)).
    { apply Scattered_cons_char. exact (IH 0%nat (Some c)). }
    destruct (wordBoundary prev c); [|exact Hnone].
    destruct (matchLinkAt (c :: s)) as [m|] eqn:E; [|exact Hnone].
    destruct (matchLinkAt_prefix _ E) as [rest Hrest].
    destruct m as [|c' m']; [now apply matchLinkAt_not_empty in E|].
    cbn [app] in Hrest. injection Hrest as <- ->.
    replace (length (c :: m') - 1) with (length m') by (cbn [length]; lia).
    change (c :: m' ++ rest) with ([] ++ (c :: m') ++ rest).
    constructor.
    specialize (IH (length m') (Some c)).
    rewrite skipn_app, skipn_all, Nat.sub_diag in IH. exact IH.
Qed.

Lemma remoteMatches_Scattered (text : jsstring) : Scattered (remoteMatches text) text.
Proof. exact (scanLinks_Scattered text 0 None). Qed.

(** So do the tokens that white space separates. *)
Lemma splitLoop_Scattered (s : jsstring) :
  forall cur inRun, (inRun = true -> cur = []) ->
                    Scattered (splitLoop cur inRun s) (rev cur ++ s).
Proof.
  induction s as [|c s IH]; intros cur inRun Hrun; cbn [splitLoop].
  - change (rev cur ++ []) with (rev cur ++ [] ++ []).
    rewrite <- (app_nil_l (rev cur ++ [] ++ [])). repeat constructor.
  - destruct (isWhitespace c).
    + destruct inRun.
      * rewrite (Hrun eq_refl). cbn [rev app].
        apply Scattered_cons_char. exact (IH [] true (fun _ => eq_refl)).
      * change (rev cur ++ c :: s) with ([] ++ rev cur ++ c :: s).
        constructor. apply Scattered_cons_char.
        exact (IH [] true (fun _ => eq_refl)).
    + specialize (IH (c :: cur) false). cbn [rev] in IH.
      rewrite <- app_assoc in IH. apply IH. discriminate.
Qed.

Lemma splitWhitespace_Scattered (text : jsstring) : Scattered (splitWhitespace text) text.
Proof. apply (@splitLoop_Scattered text [] false). discriminate. Qed.

Section OrderFacts.
Context {W AI Chat : Type}.
Variable h : Host W AI Chat.

(** The candidates a pass accepts are pieces of its matches, or of
    its tokens, and keep their order. *)
Lemma acceptedTokens_Scattered (tokens : list jsstring) (text : jsstring) :
  Scattered tokens text -> Scattered (acceptedTokens h tokens) text.
Proof.
  induction 1 as [text|gap piece pieces rest H IH]; [constructor|].
  cbn [acceptedTokens].
  destruct (negb (isEmpty (stripWrappingCharacters piece)
                  || isHttpUrl h (stripWrappingCharacters piece)
                  || isFileUrl h (stripWrappingCharacters piece))
            && supportedExt (getExtension h (stripWrappingCharacters piece))).
  - apply Scattered_trim; [apply stripWrappingCharacters_isInfix | exact IH].
  - now apply Scattered_skip.
Qed.

Lemma acceptedLinks_Scattered (matches : list jsstring) (text : jsstring) :
  Scattered matches text ->
  forall links, acceptedLinks h matches = Ok links -> Scattered links text.
Proof.
  induction 1 as [text|gap piece pieces rest H IH]; intros links Hlinks.
  - injection Hlinks as <-. constructor.
  - cbn [acceptedLinks] in Hlinks.
    destruct (extensionSource h (stripWrappingCharacters piece)) as [source|e];
      [|discriminate].
    cbn [bindR] in Hlinks.
    destruct (acceptedLinks h pieces) as [accepted|e]; [|discriminate].
    cbn [bindR] in Hlinks. injection Hlinks as <-.
    specialize (IH accepted eq_refl).
    destruct (supportedExt (getExtension h source)).
    + apply Scattered_trim; [apply stripWrappingCharacters_isInfix | exact IH].
    + now apply Scattered_skip.
Qed.
End OrderFacts.

(** C3, amended: a list of parts that the builder returns is the text
    of the prompt followed by the attachments of the references that
    loaded, the references being taken in the order in which the
    scanner meets them: first the accepted link matches, which stand
    in the text from left to right, then the accepted white-space
    separated tokens, which stand in the text from left to right, each
    reference at its first occurrence in that sequence only. *)
Theorem buildMessageParts_order
        (W AI Chat : Type) (h : Host W AI Chat)
        (prompt : jsstring) (w w' : W) (parts : list Part) :
  buildMessageParts h prompt w = (Ok parts, w') ->
  exists links tokens refs attachments,
    acceptedLinks h (remoteMatches prompt) = Ok links
    /\ tokens = acceptedTokens h (splitWhitespace prompt)
    /\ Scattered (remoteMatches prompt) prompt
    /\ Scattered (splitWhitespace prompt) prompt
    /\ Scattered links prompt
    /\ Scattered tokens prompt
    /\ refs = nub (links ++ tokens)
    /\ NoDup refs
    /\ Loaded (loadInlineDataPart h) refs w attachments w'
    /\ parts = TextPart prompt :: attachments.
Proof.
  intro H. unfold buildMessageParts in H.
  apply buildMessagePartsWith_parts in H as (refs & attachments & Hrefs & Hloaded & ->).
  apply extractFileReferences_nub in Hrefs as (links & Hlinks & ->).
  exists links, (acceptedTokens h (splitWhitespace prompt)),
    (nub (links ++ acceptedTokens h (splitWhitespace prompt))), attachments.
  split; [exact Hlinks|]. split; [reflexivity|].
  split; [apply remoteMatches_Scattered|].
  split; [apply splitWhitespace_Scattered|].
  split; [eapply acceptedLinks_Scattered; [apply remoteMatches_Scattered | exact Hlinks]|].
  split; [apply acceptedTokens_Scattered, splitWhitespace_Scattered|].
  split; [reflexivity|]. split; [apply nub_NoDup|].
  split; [exact Hloaded | reflexivity].
Qed.

Lemma buildMessageParts_order_witness :
  exists links tokens refs attachments,
    acceptedLinks Demo.host
      (remoteMatches (js "b.png (a.png) <http://x.com/logo.svg> http://x.com/b.png, b.png"))
    = Ok links
    /\ tokens = acceptedTokens Demo.host
                  (splitWhitespace
                     (js "b.png (a.png) <http://x.com/logo.svg> http://x.com/b.png, b.png"))
    /\ Scattered
         (remoteMatches (js "b.png (a.png) <http://x.com/logo.svg> http://x.com/b.png, b.png"))
         (js "b.png (a.png) <http://x.com/logo.svg> http://x.com/b.png, b.png")
    /\ Scattered
         (splitWhitespace (js "b.png (a.png) <http://x.com/logo.svg> http://x.com/b.png, b.png"))
         (js "b.png (a.png) <http://x.com/logo.svg> http://x.com/b.png, b.png")
    /\ Scattered links (js "b.png (a.png) <http://x.com/logo.svg> http://x.com/b.png, b.png")
    /\ Scattered tokens (js "b.png (a.png) <http://x.com/logo.svg> http://x.com/b.png, b.png")
    /\ refs = nub (links ++ tokens)
    /\ NoDup refs
    /\ Loaded (loadInlineDataPart Demo.host) refs Demo.world attachments
         (snd (buildMessageParts Demo.host
                 (js "b.png (a.png) <http://x.com/logo.svg> http://x.com/b.png, b.png")
                 Demo.world))
    /\ [ TextPart (js "b.png (a.png) <http://x.com/logo.svg> http://x.com/b.png, b.png");
         InlineData (js "text/xml") (js "PHN2Zz4=");
         InlineData (js "image/png") (js "iVBORw==");
         InlineData (js "image/png") (js "AwQ=");
         InlineData (js "image/png") (js "AQI=") ]
       = TextPart (js "b.png (a.png) <http://x.com/logo.svg> http://x.com/b.png, b.png")
           :: attachments.
Proof.
  apply (@buildMessageParts_order _ _ _ Demo.host
           (js "b.png (a.png) <http://x.com/logo.svg> http://x.com/b.png, b.png") Demo.world).
  reflexivity.
Defined.

(** C3 as stated fails: a bare path that stands before a link in the
    text is attached after it. *)
Lemma buildMessageParts_not_in_text_order :
  ~ (forall (prompt : jsstring) (w w' : Demo.World) (parts : list Part),
       buildMessageParts Demo.host prompt w = (Ok parts, w') ->
       exists refs attachments,
         extractFileReferences Demo.host prompt = Ok refs
         /\ inTextOrder prompt refs = true
         /\ Loaded (loadInlineDataPart Demo.host) refs w attachments w'
         /\ parts = TextPart prompt :: attachments).
Proof.
  intro H.
  destruct (H (js "a.png http://x.com/b.png") Demo.world
              (snd (buildMessageParts Demo.host (js "a.png http://x.com/b.png") Demo.world))
              [ TextPart (js "a.png http://x.com/b.png");
                InlineData (js "image/png") (js "iVBORw==");
                InlineData (js "image/png") (js "AQI=") ]
              eq_refl)
    as (refs & attachments & Hrefs & Horder & _).
  vm_compute in Hrefs. injection Hrefs as <-.
  vm_compute in Horder. discriminate.
Qed.

(** ** Where no exception can arise *)

Section TotalityFacts.
Context {W AI Chat : Type}.
Variable h : Host W AI Chat.

Lemma extensionSource_plain (candidate : jsstring) :
  startsWith candidate (js "file://") = false ->
  extensionSource h candidate = Ok candidate.
Proof. intro H. unfold extensionSource. now rewrite H. Qed.

Lemma acceptedLinks_total (matches : list jsstring) :
  (forall m, In m matches ->
             startsWith (stripWrappingCharacters m) (js "file://") = false) ->
  exists links, acceptedLinks h matches = Ok links.
Proof.
  induction matches as [|m rest IH]; intro H; [now exists []|].
  cbn [acceptedLinks].
  rewrite extensionSource_plain by (apply H; now left).
  destruct IH as [links Hlinks]; [intros m' Hm'; apply H; now right|].
  rewrite Hlinks. cbn [bindR]. eauto.
Qed.

Lemma extractFileReferences_total (text : jsstring) :
  indexOf (js "file://") text = None ->
  exists refs,
    extractFileReferences h text = Ok refs
    /\ forall r, In r refs -> startsWith r (js "file://") = false.
Proof.
  intro Hnone.
  destruct (acceptedLinks_total (remoteMatches text)) as [links Hlinks].
  { intros m Hm. eapply candidate_without_file_scheme; [exact Hnone|].
    now apply remoteMatches_isInfix. }
  unfold extractFileReferences. rewrite remotePass_acceptedLinks, Hlinks.
  cbn [bindR]. eexists. split; [reflexivity|].
  intros r Hr.
  rewrite tokenPass_acceptedTokens, <- fold_left_app, fold_setAdd_nub in Hr.
  cbn [app] in Hr. rewrite filter_notIn_nil in Hr.
  apply nub_In, in_app_or in Hr. destruct Hr as [Hr|Hr].
  - destruct (@acceptedLinks_In _ _ _ h _ _ r Hlinks Hr) as (raw & Hraw & ->).
    eapply candidate_without_file_scheme; [exact Hnone|].
    now apply remoteMatches_isInfix.
  - destruct (@acceptedTokens_In _ _ _ h _ r Hr) as (raw & Hraw & ->).
    eapply candidate_without_file_scheme; [exact Hnone|].
    now apply splitWhitespace_isInfix.
Qed.

Lemma loadLoop_total (load : jsstring -> M W (option Part)) (refs : list jsstring) :
  (forall r, In r refs -> forall w, exists result w', load r w = (Ok result, w')) ->
  forall inlineParts w, exists parts w', loadLoop load refs inlineParts w = (Ok parts, w').
Proof.
  induction refs as [|r rest IH]; intros H inlineParts w; cbn [loadLoop].
  - unfold ret. eauto.
  - unfold bind. destruct (H r (or_introl eq_refl) w) as (result & w1 & ->).
    apply IH. intros r' Hr'. apply H. now right.
Qed.

Lemma buildMessageParts_total (prompt : jsstring) (w : W) :
  indexOf (js "file://") prompt = None ->
  exists parts w', buildMessageParts h prompt w = (Ok parts, w').
Proof.
  intro Hnone.
  destruct (extractFileReferences_total prompt Hnone) as (refs & Hrefs & Hplain).
  unfold buildMessageParts, buildMessagePartsWith, bind, liftR. rewrite Hrefs.
  destruct refs as [|r rest]; [unfold ret; eauto|].
  destruct (@loadLoop_total (loadInlineDataPart h) (r :: rest)) with (inlineParts := @nil Part) (w := w)
    as (parts & w' & Hloop).
  { intros r' Hr' w0. eapply loadInlineDataPart_guarded.
    apply extensionSource_plain.
    destruct (@extractFileReferences_normalized _ _ _ h prompt _ Hrefs r' Hr') as [_ ->].
    now apply Hplain. }
  rewrite Hloop. unfold ret. eauto.
Qed.
End TotalityFacts.

(** X1: a text that does not contain [file://] always scans: the
    scanner returns its references, whatever the host answers, and none
    of them opens with [file://]. *)
Theorem extractFileReferences_total_without_file_scheme
        (W AI Chat : Type) (h : Host W AI Chat) (text : jsstring) :
  indexOf (js "file://") text = None ->
  exists refs,
    extractFileReferences h text = Ok refs
    /\ forall r, In r refs -> startsWith r (js "file://") = false.
Proof. apply extractFileReferences_total. Qed.

Lemma extractFileReferences_total_without_file_scheme_witness :
  exists refs,
    extractFileReferences Demo.host (js "see (a.png), http://x.com/b.png!") = Ok refs
    /\ forall r, In r refs -> startsWith r (js "file://") = false.
Proof.
  apply (@extractFileReferences_total_without_file_scheme _ _ _ Demo.host
           (js "see (a.png), http://x.com/b.png!")).
  reflexivity.
Defined.

(** X2: the loader never throws for a reference that, once
    normalized, does not open with [file://]: whatever the network and
    the file system do, it returns an attachment or none. *)
Theorem loadInlineDataPart_total_without_file_scheme
        (W AI Chat : Type) (h : Host W AI Chat) (reference : jsstring) (w : W) :
  startsWith (stripWrappingCharacters reference) (js "file://") = false ->
  exists result w', loadInlineDataPart h reference w = (Ok result, w').
Proof.
  intro H. eapply loadInlineDataPart_guarded.
  apply extensionSource_plain, H.
Qed.

Lemma loadInlineDataPart_total_without_file_scheme_witness :
  exists result w',
    loadInlineDataPart Demo.host (js "missing.png") Demo.world = (Ok result, w').
Proof.
  apply (@loadInlineDataPart_total_without_file_scheme _ _ _ Demo.host
           (js "missing.png") Demo.world).
  reflexivity.
Defined.

(** X3: for a prompt that does not contain [file://] the builder
    never throws: it returns a list of parts, whatever the host does. *)
Theorem buildMessageParts_total_without_file_scheme
        (W AI Chat : Type) (h : Host W AI Chat) (prompt : jsstring) (w : W) :
  indexOf (js "file://") prompt = None ->
  exists parts w', buildMessageParts h prompt w = (Ok parts, w').
Proof. apply buildMessageParts_total. Qed.

Lemma buildMessageParts_total_without_file_scheme_witness :
  exists parts w',
    buildMessageParts Demo.host (js "compare missing.png with http://x.com/none.gif")
      Demo.world = (Ok parts, w').
Proof.
  apply (@buildMessageParts_total_without_file_scheme _ _ _ Demo.host
           (js "compare missing.png with http://x.com/none.gif") Demo.world).
  reflexivity.
Defined.

(** X4: when a prompt that does not contain [file://] ends as an
    ErrorCompletion, the exception came from the model client: the
    parts were built, and [sendMessage] or [countTokens] threw the
    error whose message the completion carries. *)
Theorem error_completion_comes_from_the_client
        (W AI Chat : Type) (h : Host W AI Chat) (ai : AI) (chat : Chat)
        (model prompt message : jsstring) (w w' : W) :
  indexOf (js "file://") prompt = None ->
  runPrompt h ai chat model prompt w = (Ok (ErrorCompletion message), w') ->
  exists parts w1 error,
    buildMessageParts h prompt w = (Ok parts, w1)
    /\ mapErrorToCompletion error = Ok (ErrorCompletion message)
    /\ (sendMessage h chat parts w1 = (Throw error, w')
        \/ exists text w2,
             sendMessage h chat parts w1 = (Ok text, w2)
             /\ countTokens h ai model parts w2 = (Throw error, w')).
Proof.
  intros Hnone Hrun.
  destruct (@buildMessageParts_total _ _ _ h prompt w Hnone)
    as (parts & w1 & Hbuild).
  exists parts, w1.
  unfold runPrompt, promptBody, bind in Hrun. rewrite Hbuild in Hrun.
  destruct (sendMessage h chat parts w1) as [[text|e] w2] eqn:Esend.
  - destruct (countTokens h ai model parts w2) as [[total|e] w3] eqn:Ecount.
    + unfold ret in Hrun. discriminate.
    + injection Hrun as Hmsg <-. exists e.
      split; [exact Hbuild|]. split; [exact Hmsg|].
      right. now exists text, w2.
  - injection Hrun as Hmsg <-. exists e.
    split; [exact Hbuild|]. split; [exact Hmsg|]. now left.
Qed.

Lemma error_completion_comes_from_the_client_witness :
  exists parts w1 error,
    buildMessageParts Demo.host (js "boom") Demo.world = (Ok parts, w1)
    /\ mapErrorToCompletion error = Ok (ErrorCompletion (js "model error"))
    /\ (Demo.sendMessage (js "gemini") parts w1
        = (Throw error, snd (runPrompt Demo.host (js "secret") (js "gemini") (js "gemini")
                               (js "boom") Demo.world))
        \/ exists text w2,
             Demo.sendMessage (js "gemini") parts w1 = (Ok text, w2)
             /\ Demo.countTokens (js "secret") (js "gemini") parts w2
                = (Throw error, snd (runPrompt Demo.host (js "secret") (js "gemini")
                                       (js "gemini") (js "boom") Demo.world))).
Proof.
  apply (@error_completion_comes_from_the_client _ _ _ Demo.host (js "secret") (js "gemini")
           (js "gemini") (js "boom") (js "model error") Demo.world).
  - reflexivity.
  - reflexivity.
Defined.

(** ** What the loader returns and what it leaves in the log *)

Lemma table_value_not_empty (ext mime : jsstring) :
  lookup SUPPORTED_FILE_TYPES ext = Some mime -> mime <> [].
Proof.
  intro H. apply lookup_value in H. intros ->. vm_compute in H.
  repeat (destruct H as [H|H]; [discriminate|]). exact H.
Qed.

(** X5: a part that the loader returns is always inline data, never a
    text part, and its media type is never the empty string. *)
Theorem loadInlineDataPart_yields_typed_inline_data
        (W AI Chat : Type) (h : Host W AI Chat)
        (reference : jsstring) (w w' : W) (part : Part) :
  loadInlineDataPart h reference w = (Ok (Some part), w') ->
  exists mime data, part = InlineData mime data /\ mime <> [].
Proof.
  intro Hload.
  destruct (isHttpUrl h (stripWrappingCharacters reference)) eqn:Hhttp.
  - unfold loadInlineDataPart, bind, liftR in Hload.
    destruct (extensionSource h (stripWrappingCharacters reference)) as [source|e];
      [|discriminate].
    destruct (getExtension h source) as [ext|]; [|discriminate].
    destruct (lookup SUPPORTED_FILE_TYPES ext) as [guess|] eqn:Eguess; [|discriminate].
    unfold tryCatch, loadGuarded, bind, effect, ret in Hload. rewrite Hhttp in Hload.
    destruct (fetch h (stripWrappingCharacters reference) w) as [[response|e] w1];
      [|discriminate].
    destruct (ok response); cbn [negb] in Hload; [|discriminate].
    destruct (arrayBuffer h response w1) as [[buffer|e] w2]; [|discriminate].
    injection Hload as <- <-. eexists _, _. split; [reflexivity|].
    unfold remoteMimeType. destruct (headerMime response) as [m|].
    + destruct m as [|c m]; cbn [isEmpty negb andb].
      * eapply table_value_not_empty, Eguess.
      * destruct (negb (str_eqb guess (c :: m)));
          [discriminate | eapply table_value_not_empty, Eguess].
    + eapply table_value_not_empty, Eguess.
  - destruct (@loadInlineDataPart_local _ _ _ h reference w w' part Hhttp Hload)
      as (source & ext & guess & filePath & bytes & _ & _ & Hguess & _ & _ & ->).
    eexists _, _. split; [reflexivity|].
    pose proof (@guessMimeType_supported _ _ _ h filePath ext guess Hguess) as Hin.
    intro E. rewrite E in Hin. vm_compute in Hin.
    repeat (destruct Hin as [Hin|Hin]; [discriminate|]). exact Hin.
Qed.

Lemma loadInlineDataPart_yields_typed_inline_data_witness :
  exists mime data,
    InlineData (js "image/png") (js "iVBORw==") = InlineData mime data /\ mime <> [].
Proof.
  apply (@loadInlineDataPart_yields_typed_inline_data _ _ _ Demo.host
           (js "http://x.com/b.png") Demo.world
           (snd (loadInlineDataPart Demo.host (js "http://x.com/b.png") Demo.world))).
  reflexivity.
Defined.

(** X6: a reference whose extension is missing or not in the table is
    dropped before anything is touched: the loader returns no
    attachment and leaves the world as it was (no fetch, no read, no
    warning). *)
Theorem loadInlineDataPart_skips_unsupported
        (W AI Chat : Type) (h : Host W AI Chat)
        (reference source : jsstring) (w : W) :
  extensionSource h (stripWrappingCharacters reference) = Ok source ->
  supportedExt (getExtension h source) = false ->
  loadInlineDataPart h reference w = (Ok None, w).
Proof.
  intros Hsrc Hext. unfold loadInlineDataPart, bind, liftR. rewrite Hsrc.
  unfold supportedExt in Hext.
  destruct (getExtension h source) as [ext|]; [|reflexivity].
  destruct (lookup SUPPORTED_FILE_TYPES ext); [discriminate | reflexivity].
Qed.

Lemma loadInlineDataPart_skips_unsupported_witness :
  loadInlineDataPart Demo.host (js "~/docs/a.txt") Demo.world = (Ok None, Demo.world).
Proof.
  apply (@loadInlineDataPart_skips_unsupported _ _ _ Demo.host
           (js "~/docs/a.txt") (js "~/docs/a.txt") Demo.world); reflexivity.
Defined.

(** X7: when the loader drops a reference whose extension is in the
    table, it has written one warning: either the server answered with
    a status that is not a success and the warning names that status,
    or a step of the guarded block threw and the warning carries the
    exception. *)
Theorem loadInlineDataPart_drop_is_logged
        (W AI Chat : Type) (h : Host W AI Chat)
        (reference source ext guess : jsstring) (w w' : W) :
  extensionSource h (stripWrappingCharacters reference) = Ok source ->
  getExtension h source = Some ext ->
  lookup SUPPORTED_FILE_TYPES ext = Some guess ->
  loadInlineDataPart h reference w = (Ok None, w') ->
  (exists response w1,
      isHttpUrl h (stripWrappingCharacters reference) = true
      /\ fetch h (stripWrappingCharacters reference) w = (Ok response, w1)
      /\ ok response = false
      /\ w' = console h (WarnFetchFailed (stripWrappingCharacters reference)
                           (status response)) w1)
  \/ (exists error w1,
        loadGuarded h (stripWrappingCharacters reference) ext guess w = (Throw error, w1)
        /\ w' = console h (WarnUnableToLoad (stripWrappingCharacters reference) error) w1).
Proof.
  intros Hsrc Hext Hguess Hload.
  unfold loadInlineDataPart, bind, liftR in Hload. rewrite Hsrc, Hext, Hguess in Hload.
  unfold tryCatch in Hload.
  destruct (loadGuarded h (stripWrappingCharacters reference) ext guess w)
    as [[result|error] w1] eqn:Eguarded.
  - left. injection Hload as -> <-.
    unfold loadGuarded in Eguarded.
    destruct (isHttpUrl h (stripWrappingCharacters reference)) eqn:Hhttp.
    + unfold bind, effect, ret in Eguarded.
      destruct (fetch h (stripWrappingCharacters reference) w) as [[response|e] w2];
        [|discriminate].
      destruct (ok response) eqn:Hok; cbn [negb] in Eguarded.
      * destruct (arrayBuffer h response w2) as [[buffer|e] w3]; discriminate.
      * injection Eguarded as <-. exists response, w2. repeat split. assumption.
    + unfold bind, liftR, ret in Eguarded.
      destruct (resolveLocalPath h (stripWrappingCharacters reference)) as [filePath|e];
        [|discriminate].
      destruct (readFile h filePath w) as [[data|e] w2]; discriminate.
  - right. unfold bind, effect, ret in Hload. injection Hload as <-.
    exists error, w1. split; reflexivity.
Qed.

Lemma loadInlineDataPart_drop_is_logged_witness :
  (exists response w1,
      isHttpUrl Demo.host (js "https://example.com/img.png") = true
      /\ Demo.fetch (js "https://example.com/img.png") Demo.world = (Ok response, w1)
      /\ ok response = false
      /\ snd (loadInlineDataPart Demo.host (js "https://example.com/img.png") Demo.world)
         = Demo.console (WarnFetchFailed (js "https://example.com/img.png")
                           (status response)) w1)
  \/ (exists error w1,
        loadGuarded Demo.host (js "https://example.com/img.png") (js ".png")
          (js "image/png") Demo.world = (Throw error, w1)
        /\ snd (loadInlineDataPart Demo.host (js "https://example.com/img.png") Demo.world)
           = Demo.console (WarnUnableToLoad (js "https://example.com/img.png") error) w1).
Proof.
  apply (@loadInlineDataPart_drop_is_logged _ _ _ Demo.host
           (js "https://example.com/img.png") (js "https://example.com/img.png")
           (js ".png") (js "image/png") Demo.world); reflexivity.
Defined.

(** ** What the scanner returns *)

Section ReferenceFacts.
Context {W AI Chat : Type}.
Variable h : Host W AI Chat.

Lemma acceptedLinks_supported (matches links : list jsstring) (r : jsstring) :
  acceptedLinks h matches = Ok links -> In r links ->
  exists source, extensionSource h r = Ok source
                 /\ supportedExt (getExtension h source) = true.
Proof.
  revert links. induction matches as [|rawMatch rest IH]; intros links H Hin.
  - injection H as <-. contradiction.
  - cbn [acceptedLinks] in H.
    destruct (extensionSource h (stripWrappingCharacters rawMatch)) as [source|e] eqn:Esrc;
      [|discriminate].
    cbn [bindR] in H.
    destruct (acceptedLinks h rest) as [accepted|e]; [|discriminate].
    cbn [bindR] in H. injection H as <-.
    destruct (supportedExt (getExtension h source)) eqn:Esup.
    + destruct Hin as [<-|Hin]; [now exists source | now apply (IH accepted)].
    + now apply (IH accepted).
Qed.

Lemma acceptedTokens_supported (tokens : list jsstring) (r : jsstring) :
  In r (acceptedTokens h tokens) ->
  supportedExt (getExtension h r) = true
  /\ isHttpUrl h r = false /\ isFileUrl h r = false /\ r <> [].
Proof.
  induction tokens as [|rawToken rest IH]; intro Hin; [contradiction|].
  cbn [acceptedTokens] in Hin.
  destruct (isEmpty (stripWrappingCharacters rawToken)) eqn:Eempty;
    cbn [orb negb andb] in Hin; [now apply IH|].
  destruct (isHttpUrl h (stripWrappingCharacters rawToken)) eqn:Ehttp;
    cbn [orb negb andb] in Hin; [now apply IH|].
  destruct (isFileUrl h (stripWrappingCharacters rawToken)) eqn:Efile;
    cbn [orb negb andb] in Hin; [now apply IH|].
  destruct (supportedExt (getExtension h (stripWrappingCharacters rawToken))) eqn:Esup;
    [|now apply IH].
  destruct Hin as [<-|Hin]; [|now apply IH].
  repeat split; try assumption. intro E. now rewrite E in Eempty.
Qed.

Lemma reference_origin (text : jsstring) (refs : list jsstring) (r : jsstring) :
  extractFileReferences h text = Ok refs -> In r refs ->
  (exists source, extensionSource h r = Ok source
                  /\ supportedExt (getExtension h source) = true)
  \/ (supportedExt (getExtension h r) = true
      /\ isHttpUrl h r = false /\ isFileUrl h r = false /\ r <> []).
Proof.
  intros H Hin.
  apply extractFileReferences_nub in H as (links & Hlinks & ->).
  apply nub_In, in_app_or in Hin. destruct Hin as [Hin|Hin].
  - left. eapply acceptedLinks_supported; eassumption.
  - right. now apply (acceptedTokens_supported (splitWhitespace text)).
Qed.

Lemma reference_isInfix (text : jsstring) (refs : list jsstring) (r : jsstring) :
  extractFileReferences h text = Ok refs -> In r refs -> isInfix r text.
Proof.
  intros H Hin.
  apply extractFileReferences_nub in H as (links & Hlinks & ->).
  apply nub_In, in_app_or in Hin. destruct Hin as [Hin|Hin].
  - destruct (@acceptedLinks_In _ _ _ h _ _ r Hlinks Hin) as (raw & Hraw & ->).
    eapply isInfix_trans; [apply stripWrappingCharacters_isInfix|].
    now apply remoteMatches_isInfix.
  - destruct (@acceptedTokens_In _ _ _ h _ r Hin) as (raw & Hraw & ->).
    eapply isInfix_trans; [apply stripWrappingCharacters_isInfix|].
    now apply splitWhitespace_isInfix.
Qed.
End ReferenceFacts.

(** X8: every reference that the scanner returns was accepted for a
    supported extension: either it is a link candidate whose source
    (the file path behind a [file://] URL, the candidate itself
    otherwise) has an extension of the table, or it is a token that is
    neither an HTTP URL nor a file URL and whose own extension is in
    the table. *)
Theorem extractFileReferences_supported
        (W AI Chat : Type) (h : Host W AI Chat)
        (text : jsstring) (refs : list jsstring) :
  extractFileReferences h text = Ok refs ->
  forall r, In r refs ->
    (exists source, extensionSource h r = Ok source
                    /\ supportedExt (getExtension h source) = true)
    \/ (supportedExt (getExtension h r) = true
        /\ isHttpUrl h r = false /\ isFileUrl h r = false).
Proof.
  intros H r Hin.
  destruct (@reference_origin _ _ _ h text refs r H Hin) as [Hlink|(Hsup & Hhttp & Hfile & _)];
    [now left | right; repeat split; assumption].
Qed.

Lemma extractFileReferences_supported_witness :
  (exists source, extensionSource Demo.host (js "a.png") = Ok source
                  /\ supportedExt (getExtension Demo.host source) = true)
  \/ (supportedExt (getExtension Demo.host (js "a.png")) = true
      /\ isHttpUrl Demo.host (js "a.png") = false
      /\ isFileUrl Demo.host (js "a.png") = false).
Proof.
  apply (@extractFileReferences_supported _ _ _ Demo.host (js "a.png http://x.com/b.png")
           [js "http://x.com/b.png"; js "a.png"]).
  - reflexivity.
  - right. left. reflexivity.
Defined.

(** X9: the references that the scanner returns are pairwise distinct,
    and each of them is a non-empty piece of the text, free of white
    space, on which the token normalizer changes nothing. *)
Theorem extractFileReferences_shape
        (W AI Chat : Type) (h : Host W AI Chat)
        (text : jsstring) (refs : list jsstring) :
  extractFileReferences h text = Ok refs ->
  NoDup refs
  /\ forall r, In r refs ->
       r <> [] /\ isInfix r text /\ noWhitespace r = true
       /\ stripWrappingCharacters r = r.
Proof.
  intro H. split; [eapply extractFileReferences_NoDup, H|].
  intros r Hin.
  destruct (@extractFileReferences_normalized _ _ _ h text refs H r Hin) as [Hws Hfix].
  repeat split; try assumption.
  - destruct (@reference_origin _ _ _ h text refs r H Hin) as [(source & Hsrc & Hsup)|(_ & _ & _ & Hne)];
      [|exact Hne].
    intros ->. cbv in Hsrc. injection Hsrc as <-. discriminate.
  - eapply reference_isInfix; eassumption.
Qed.

Lemma extractFileReferences_shape_witness :
  NoDup [js "http://x.com/b.png"; js "a.png"]
  /\ forall r, In r [js "http://x.com/b.png"; js "a.png"] ->
       r <> [] /\ isInfix r (js "(a.png), <http://x.com/b.png> 'a.png'")
       /\ noWhitespace r = true /\ stripWrappingCharacters r = r.
Proof.
  apply (@extractFileReferences_shape _ _ _ Demo.host
           (js "(a.png), <http://x.com/b.png> 'a.png'")).
  reflexivity.
Defined.

(** ** The calls of the loader *)

(** X10: the loop of the builder calls the loader on the references in
    the order of the list, on each of them once, and on every one of
    them unless a call throws; when a call throws, that call is the
    last one: the references before it were loaded, none after it is,
    and the loop throws what the call threw.  Writing the calls down
    changes neither the result of the loop nor the world it leaves. *)
Theorem loadLoop_calls_in_order
        (W : Type) (load : jsstring -> M W (option Part)) (refs : list jsstring) :
  forall (inlineParts : list Part) (w : W) (calls : list jsstring),
    (exists attachments w',
        Loaded load refs w attachments w'
        /\ loadLoop load refs inlineParts w = (Ok (inlineParts ++ attachments), w')
        /\ loadLoop (recording load) refs inlineParts (w, calls)
           = (Ok (inlineParts ++ attachments), (w', calls ++ refs)))
    \/ (exists before r after attachments w1 error w2,
           refs = before ++ r :: after
           /\ Loaded load before w attachments w1
           /\ load r w1 = (Throw error, w2)
           /\ loadLoop load refs inlineParts w = (Throw error, w2)
           /\ loadLoop (recording load) refs inlineParts (w, calls)
              = (Throw error, (w2, calls ++ before ++ [r]))).
Proof.
  induction refs as [|r rest IH]; intros inlineParts w calls.
  - left. exists [], w. cbn [loadLoop]. unfold ret. rewrite !app_nil_r.
    repeat split. constructor.
  - assert (Hrec : recording load r (w, calls)
                   = (fst (load r w), (snd (load r w), calls ++ [r]))).
    { unfold recording. cbn [fst snd]. destruct (load r w); reflexivity. }
    cbn [loadLoop]. unfold bind. rewrite Hrec.
    destruct (load r w) as [[part|e] w1] eqn:Eload; cbn [fst snd].
    + destruct (IH (match part with
                    | Some p => inlineParts ++ [p]
                    | None => inlineParts
                    end) w1 (calls ++ [r]))
        as [(attachments & w' & Hloaded & Hloop & Hrecorded)
           |(before & r' & after & attachments & w2 & error & w3
             & -> & Hloaded & Hthrow & Hloop & Hrecorded)].
      * left. rewrite Hloop, Hrecorded.
        destruct part as [p|].
        -- exists (p :: attachments), w'. rewrite <- !app_assoc.
           repeat split. eapply Loaded_part; eassumption.
        -- exists attachments, w'. rewrite <- !app_assoc.
           repeat split. eapply Loaded_none; eassumption.
      * right. rewrite Hloop, Hrecorded.
        destruct part as [p|].
        -- exists (r :: before), r', after, (p :: attachments), w2, error, w3.
           rewrite <- !app_assoc.
           repeat split; try assumption. eapply Loaded_part; eassumption.
        -- exists (r :: before), r', after, attachments, w2, error, w3.
           rewrite <- !app_assoc.
           repeat split; try assumption. eapply Loaded_none; eassumption.
    + right. exists [], r, rest, [], w, e, w1.
      repeat split; try assumption. constructor.
Qed.

(** ** The token normalizer on any string *)

Lemma cutClosers_stops (s : jsstring) : endsWithCloser (dropWhileEnd isCloser s) = false.
Proof.
  induction s as [|c s IH] using rev_ind; [reflexivity|].
  rewrite dropWhileEnd_app_last. destruct (isCloser c) eqn:E; [exact IH|].
  unfold endsWithCloser. rewrite rev_app_distr. exact E.
Qed.

(** X11: whatever string it is given, the token normalizer returns a
    piece of it that neither opens with an opening wrapper nor ends
    with a closing or punctuation character. *)
Theorem stripWrappingCharacters_shape (value : jsstring) :
  isInfix (stripWrappingCharacters value) value
  /\ headSat isOpener (stripWrappingCharacters value) = false
  /\ endsWithCloser (stripWrappingCharacters value) = false.
Proof.
  split; [apply stripWrappingCharacters_isInfix|].
  rewrite stripWrappingCharacters_dropWhileEnd. split.
  - pose proof (dropWhile_head isOpener (trim value)) as Hh.
    pose proof (@dropWhileEnd_keeps_head _ isCloser isOpener
                  (dropWhile isOpener (trim value))) as Hk.
    destruct (headSat isOpener (dropWhileEnd isCloser (dropWhile isOpener (trim value))));
      [|reflexivity].
    specialize (Hk eq_refl).
    destruct (dropWhile isOpener (trim value)) as [|d u]; cbn [headSat] in Hk;
      [discriminate|].
    rewrite Hk in Hh. discriminate.
  - apply cutClosers_stops.
Qed.

(** ** The type classifier on any string *)

Lemma forallb_takeWhile (A : Type) (p q : A -> bool) (l : list A) :
  forallb q l = true -> forallb q (takeWhile p l) = true.
Proof.
  induction l as [|x l IH]; simpl; [reflexivity|].
  intro H. apply andb_true_iff in H as [Hx Hl].
  destruct (p x); simpl; [now rewrite Hx, IH | reflexivity].
Qed.

Lemma forallb_rev (A : Type) (q : A -> bool) (l : list A) :
  forallb q l = true -> forallb q (rev l) = true.
Proof.
  intro H. apply forallb_forall. intros x Hx. apply in_rev in Hx.
  revert x Hx. now apply forallb_forall.
Qed.

Lemma forallb_map_compose (A B : Type) (f : A -> B) (q : B -> bool) (l : list A) :
  forallb q (map f l) = forallb (fun x => q (f x)) l.
Proof.
  induction l as [|x l IH]; simpl; [reflexivity | now rewrite IH].
Qed.

Lemma pathPart_idempotent (input : jsstring) : pathPart (pathPart input) = pathPart input.
Proof.
  unfold pathPart. rewrite takeWhile_takeWhile. apply takeWhile_ext.
  intro c. apply andb_diag.
Qed.

Lemma lastComponent_notSlash (path : jsstring) :
  forallb notSlash (lastComponent path) = true.
Proof. unfold lastComponent. apply forallb_rev, takeWhile_forallb. Qed.

Lemma isInfix_rev (a s : jsstring) : isInfix a s -> isInfix (rev a) (rev s).
Proof.
  intros (before & after & ->). exists (rev after), (rev before).
  now rewrite !rev_app_distr, <- app_assoc.
Qed.

Lemma takeWhile_isInfix (p : char -> bool) (s : jsstring) : isInfix (takeWhile p s) s.
Proof.
  exists [], (dropWhile p s). cbn [app]. symmetry. apply takeWhile_dropWhile.
Qed.

Lemma lastComponent_isInfix (path : jsstring) : isInfix (lastComponent path) path.
Proof.
  unfold lastComponent. rewrite <- (rev_involutive path) at 2.
  apply isInfix_rev.
  eapply isInfix_trans; [apply takeWhile_isInfix | apply dropWhile_isInfix].
Qed.

(** A string that has a last dot is what stands before that dot, the
    dot, and what stands after it, which holds no dot. *)
Lemma splitLastDot_app (s before after : jsstring) :
  splitLastDot s = Some (before, after) ->
  s = before ++ CHAR_DOT :: after /\ forallb notDot after = true.
Proof.
  unfold splitLastDot. intro H.
  pose proof (takeWhile_dropWhile notDot (rev s)) as Hsplit.
  pose proof (dropWhile_head notDot (rev s)) as Hhead.
  destruct (dropWhile notDot (rev s)) as [|d b]; [discriminate|].
  injection H as <- <-. cbn [headSat] in Hhead.
  assert (Hd : d = CHAR_DOT).
  { unfold notDot, isDot in Hhead.
    destruct (N.eqb_spec d CHAR_DOT) as [E|E]; [exact E | discriminate]. }
  subst d. split.
  - apply (f_equal (@rev char)) in Hsplit.
    rewrite rev_involutive, rev_app_distr in Hsplit. cbn [rev] in Hsplit.
    rewrite <- app_assoc in Hsplit. symmetry. exact Hsplit.
  - apply forallb_rev, takeWhile_forallb.
Qed.

Section ExtensionShape.
Context {W AI Chat : Type}.
Variable h : Host W AI Chat.

Lemma getExtension_pathPart (input : jsstring) :
  getExtension h input = getExtension h (pathPart input).
Proof. now rewrite !getExtension_extnameSpec, pathPart_idempotent. Qed.

Lemma getExtension_raw (input ext : jsstring) :
  getExtension h input = Some ext ->
  exists raw,
    isInfix (CHAR_DOT :: raw) input
    /\ forallb (fun c => notDot c && notSlash c) raw = true
    /\ ext = toLowerCase h (CHAR_DOT :: raw).
Proof.
  intro H. rewrite getExtension_extnameSpec in H. cbn zeta in H.
  unfold extnameSpec in H.
  pose proof (lastComponent_notSlash (pathPart input)) as Hslash.
  pose proof (lastComponent_isInfix (pathPart input)) as Hcomp.
  destruct (splitLastDot (lastComponent (pathPart input))) as [[before after]|] eqn:E;
    [|discriminate].
  destruct (isEmpty before || str_eqb (lastComponent (pathPart input)) (js ".."));
    [discriminate|].
  cbn [isEmpty] in H. injection H as <-.
  apply splitLastDot_app in E as [Hsplit Hdots].
  exists after. split; [|split; [|reflexivity]].
  - eapply isInfix_trans; [|eapply isInfix_trans; [exact Hcomp | apply takeWhile_isInfix]].
    rewrite Hsplit. exists before, []. now rewrite app_nil_r.
  - rewrite Hsplit, forallb_app in Hslash. apply andb_true_iff in Hslash as [_ Hslash].
    cbn [forallb] in Hslash. apply andb_true_iff in Hslash as [_ Hslash].
    apply forallb_forall. intros x Hx.
    rewrite (proj1 (forallb_forall notDot after) Hdots x Hx).
    now rewrite (proj1 (forallb_forall notSlash after) Hslash x Hx).
Qed.
End ExtensionShape.

(** X12: the extension depends on the text before the first [?] or
    [#] only.  When there is one, it is the lower-casing of a piece of
    the text: a dot followed by characters that are neither a dot nor a
    slash; it opens with a dot; and when the piece is made of ASCII
    characters, it is the piece with [A-Z] turned into [a-z]. *)
Theorem getExtension_shape
        (W AI Chat : Type) (h : Host W AI Chat) (input : jsstring) :
  getExtension h input = getExtension h (pathPart input)
  /\ forall ext, getExtension h input = Some ext ->
       exists raw,
         isInfix (CHAR_DOT :: raw) input
         /\ forallb (fun c => notDot c && notSlash c) raw = true
         /\ ext = toLowerCase h (CHAR_DOT :: raw)
         /\ (exists rest, ext = CHAR_DOT :: rest)
         /\ (forallb isAscii raw = true -> ext = CHAR_DOT :: lowerAscii raw).
Proof.
  split; [apply getExtension_pathPart|].
  intros ext H. destruct (getExtension_raw h input H) as (raw & Hin & Hraw & ->).
  exists raw. repeat split; try assumption.
  - apply toLowerCase_dot.
  - intro Hascii. rewrite toLowerCase_ascii; [reflexivity|].
    cbn [forallb]. now rewrite Hascii.
Qed.

Lemma getExtension_shape_witness :
  exists raw,
    isInfix (CHAR_DOT :: raw) (js "https://x.com/a.b/Report.PDF?v=1.2#p/3")
    /\ forallb (fun c => notDot c && notSlash c) raw = true
    /\ js ".pdf" = toLowerCase Demo.host (CHAR_DOT :: raw)
    /\ (exists rest, js ".pdf" = CHAR_DOT :: rest)
    /\ (forallb isAscii raw = true -> js ".pdf" = CHAR_DOT :: lowerAscii raw).
Proof.
  apply (proj2 (getExtension_shape Demo.host (js "https://x.com/a.b/Report.PDF?v=1.2#p/3"))).
  reflexivity.
Defined.

(** X13: for a fallback extension that opens with a dot, as the one
    the loader passes, [guessMimeType] answers
    [application/octet-stream] exactly when neither the extension of
    the reference nor the fallback extension is a key of the table; in
    every other case it answers with a value of the table, the one of
    the reference's own extension first. *)
Theorem guessMimeType_fallback
        (W AI Chat : Type) (h : Host W AI Chat) (reference fallbackExt : jsstring) :
  startsWith fallbackExt [CHAR_DOT] = true ->
  (guessMimeType h reference fallbackExt = js "application/octet-stream"
   <-> supportedExt (getExtension h reference) = false
       /\ lookup SUPPORTED_FILE_TYPES fallbackExt = None)
  /\ (forall ext mime,
        getExtension h reference = Some ext ->
        lookup SUPPORTED_FILE_TYPES ext = Some mime ->
        guessMimeType h reference fallbackExt = mime)
  /\ (supportedExt (getExtension h reference) = false ->
      forall mime, lookup SUPPORTED_FILE_TYPES fallbackExt = Some mime ->
                   guessMimeType h reference fallbackExt = mime).
Proof.
  intros _.
  assert (Hne : forall e m, lookup SUPPORTED_FILE_TYPES e = Some m ->
                            m <> js "application/octet-stream").
  { intros e m H E. apply lookup_value in H. rewrite E in H.
    exact (octet_stream_not_in_table H). }
  split; [|split].
  - unfold guessMimeType, supportedExt.
    destruct (getExtension h reference) as [ext|].
    + destruct (lookup SUPPORTED_FILE_TYPES ext) as [m|] eqn:E.
      * split; [intro H; now apply Hne in E | intros [H _]; discriminate].
      * destruct (lookup SUPPORTED_FILE_TYPES fallbackExt) as [m|] eqn:E'.
        -- split; [intro H; now apply Hne in E' | intros [_ H]; discriminate].
        -- split; auto.
    + destruct (lookup SUPPORTED_FILE_TYPES fallbackExt) as [m|] eqn:E'.
      * split; [intro H; now apply Hne in E' | intros [_ H]; discriminate].
      * split; auto.
  - intros ext mime Hext Hmime. unfold guessMimeType. now rewrite Hext, Hmime.
  - unfold guessMimeType, supportedExt. intros Hsup mime Hmime.
    destruct (getExtension h reference) as [ext|]; [|now rewrite Hmime].
    destruct (lookup SUPPORTED_FILE_TYPES ext); [discriminate | now rewrite Hmime].
Qed.

Lemma guessMimeType_fallback_witness :
  startsWith (js ".pdf") [CHAR_DOT] = true
  /\ guessMimeType Demo.host (js "/tmp/photo.JPG") (js ".pdf") = js "image/jpeg"
  /\ guessMimeType Demo.host (js "/tmp/notes.txt") (js ".pdf") = js "application/pdf".
Proof.
  split; [reflexivity|]. split.
  - apply (proj1 (proj2 (@guessMimeType_fallback _ _ _ Demo.host (js "/tmp/photo.JPG")
                           (js ".pdf") eq_refl)) (js ".jpg")); reflexivity.
  - apply (proj2 (proj2 (@guessMimeType_fallback _ _ _ Demo.host (js "/tmp/notes.txt")
                           (js ".pdf") eq_refl))); reflexivity.
Defined.

(** ** The URL tests *)

(** X14: the two URL tests exclude each other, and both fail on a
    string that [new URL] rejects: a candidate is an HTTP URL, a file
    URL or neither, never both. *)
Theorem url_kinds_exclusive
        (W AI Chat : Type) (h : Host W AI Chat) (value : jsstring) :
  (isHttpUrl h value = true -> isFileUrl h value = false)
  /\ (forall error, newURL h value = Throw error ->
                    isHttpUrl h value = false /\ isFileUrl h value = false).
Proof.
  unfold isHttpUrl, isFileUrl. split.
  - destruct (newURL h value) as [url|e]; [|reflexivity].
    intro H. apply orb_true_iff in H as [H|H]; apply str_eqb_eq in H; now rewrite H.
  - intros error ->. split; reflexivity.
Qed.

Lemma url_kinds_exclusive_witness :
  isFileUrl Demo.host (js "https://example.com/img.png") = false
  /\ isHttpUrl Demo.host (js "file://<x>/a.pdf") = false
  /\ isFileUrl Demo.host (js "file://<x>/a.pdf") = false.
Proof.
  split.
  - apply (proj1 (url_kinds_exclusive Demo.host (js "https://example.com/img.png"))).
    reflexivity.
  - apply (proj2 (url_kinds_exclusive Demo.host (js "file://<x>/a.pdf"))
             (ErrorObject (js "Invalid URL"))).
    reflexivity.
Defined.

(** ** The setup of the batch *)

Lemma trim_idempotent (s : jsstring) : trim (trim s) = trim s.
Proof.
  unfold trim at 1.
  rewrite dropWhile_head_fixed.
  - unfold trim. apply dropWhileEnd_idempotent.
  - unfold trim.
    pose proof (dropWhile_head isWhitespace s) as Hh.
    pose proof (@dropWhileEnd_keeps_head _ isWhitespace isWhitespace
                  (dropWhile isWhitespace s)) as Hk.
    destruct (dropWhileEnd isWhitespace (dropWhile isWhitespace s)) as [|c t];
      [reflexivity|].
    cbn [headSat] in Hk. destruct (isWhitespace c); [|reflexivity].
    specialize (Hk eq_refl).
    destruct (dropWhile isWhitespace s) as [|d u]; cbn [headSat] in Hk; [discriminate|].
    rewrite Hk in Hh. discriminate.
Qed.

(** X16: [main] builds the client with the key of the settings only
    when that key is a string that is not blank, and then with the key
    trimmed: the key it hands over is never empty and has no white space
    around it; the chat gets a configuration only when the properties
    are not empty. *)
Theorem setup_forwards_a_trimmed_key
        (W AI Chat : Type) (h : Host W AI Chat)
        (model : jsstring) (properties settings : list (jsstring * JsValue)) (w : W) :
  setup h model properties settings w
  = (match newGoogleGenAI h (apiKeyOf settings) w with
     | (Ok ai, w1) =>
         match chatsCreate h ai model
                 (match properties with [] => None | _ :: _ => Some properties end) w1 with
         | (Ok chat, w2) => (Ok (ai, chat), w2)
         | (Throw error, w2) => (Throw error, w2)
         end
     | (Throw error, w1) => (Throw error, w1)
     end)
  /\ (forall key, apiKeyOf settings = Some key ->
        key <> [] /\ trim key = key
        /\ exists raw, getProperty settings API_KEY = Some (JsString raw)
                       /\ key = trim raw)
  /\ (apiKeyOf settings = None ->
      forall raw, getProperty settings API_KEY = Some (JsString raw) -> trim raw = []).
Proof.
  split; [|split].
  - unfold setup, bind, ret. fold (apiKeyOf settings).
    destruct (newGoogleGenAI h (apiKeyOf settings) w) as [[ai|e] w1]; [|reflexivity].
    destruct (chatsCreate h ai model _ w1) as [[chat|e] w2]; reflexivity.
  - unfold apiKeyOf. intros key H.
    destruct (getProperty settings API_KEY) as [[raw| | |]|]; try discriminate.
    destruct (trim raw) as [|c t] eqn:E; [discriminate|].
    cbn [isEmpty negb] in H. injection H as <-.
    split; [discriminate|]. split.
    + rewrite <- E. apply trim_idempotent.
    + exists raw. split; [reflexivity | now rewrite E].
  - unfold apiKeyOf. intros H raw Hraw. rewrite Hraw in H.
    destruct (trim raw); [reflexivity | discriminate].
Qed.

Lemma setup_forwards_a_trimmed_key_witness :
  js "secret" <> [] /\ trim (js "secret") = js "secret"
  /\ exists raw, getProperty Demo.settings API_KEY = Some (JsString raw)
                 /\ js "secret" = trim raw.
Proof.
  apply (proj1 (proj2 (setup_forwards_a_trimmed_key Demo.host (js "gemini") []
                         Demo.settings Demo.world))).
  reflexivity.
Defined.

(** ** Prompts that name no file *)

Lemma dropWhile_all (A : Type) (p : A -> bool) (l : list A) :
  forallb p l = true -> dropWhile p l = [].
Proof.
  induction l as [|x l IH]; simpl; [reflexivity|].
  intro H. apply andb_true_iff in H as [Hx Hl]. rewrite Hx. now apply IH.
Qed.

Lemma forallb_isInfix (q : char -> bool) (t text : jsstring) :
  forallb q text = true -> isInfix t text -> forallb q t = true.
Proof.
  intros H (before & after & ->).
  rewrite !forallb_app in H.
  apply andb_true_iff in H as [_ H]. now apply andb_true_iff in H as [H _].
Qed.

(** A string without a dot has no extension. *)
Lemma getExtension_without_dot (W AI Chat : Type) (h : Host W AI Chat) (s : jsstring) :
  forallb notDot s = true -> getExtension h s = None.
Proof.
  intro H. rewrite getExtension_extnameSpec. cbn zeta.
  unfold extnameSpec, splitLastDot.
  rewrite dropWhile_all; [reflexivity|].
  apply forallb_rev. unfold lastComponent.
  apply forallb_rev, forallb_takeWhile, forallb_dropWhile, forallb_rev.
  unfold pathPart. now apply forallb_takeWhile.
Qed.

Section PlainPromptFacts.
Context {W AI Chat : Type}.
Variable h : Host W AI Chat.

Lemma acceptedLinks_none (matches : list jsstring) :
  (forall m, In m matches ->
             startsWith (stripWrappingCharacters m) (js "file://") = false
             /\ getExtension h (stripWrappingCharacters m) = None) ->
  acceptedLinks h matches = Ok [].
Proof.
  induction matches as [|m rest IH]; intro H; [reflexivity|].
  cbn [acceptedLinks].
  destruct (H m (or_introl eq_refl)) as [Hplain Hext].
  rewrite (extensionSource_plain h _ Hplain). cbn [bindR].
  rewrite IH by (intros m' Hm'; apply H; now right).
  cbn [bindR]. now rewrite Hext.
Qed.

Lemma acceptedTokens_none (tokens : list jsstring) :
  (forall t, In t tokens -> getExtension h (stripWrappingCharacters t) = None) ->
  acceptedTokens h tokens = [].
Proof.
  induction tokens as [|t rest IH]; intro H; [reflexivity|].
  cbn [acceptedTokens]. rewrite (H t (or_introl eq_refl)).
  cbn [supportedExt]. rewrite andb_false_r.
  apply IH. intros t' Ht'. apply H. now right.
Qed.
End PlainPromptFacts.

(** X18: a prompt without any dot and without [file://] names no
    file: the builder returns the text part alone and leaves the world
    untouched, so nothing is fetched, read or logged for it. *)
Theorem buildMessageParts_of_a_plain_prompt
        (W AI Chat : Type) (h : Host W AI Chat) (prompt : jsstring) (w : W) :
  forallb notDot prompt = true ->
  indexOf (js "file://") prompt = None ->
  buildMessageParts h prompt w = (Ok [TextPart prompt], w).
Proof.
  intros Hdot Hnone.
  assert (Hcand : forall raw, isInfix raw prompt ->
                    startsWith (stripWrappingCharacters raw) (js "file://") = false
                    /\ getExtension h (stripWrappingCharacters raw) = None).
  { intros raw Hraw. split; [now apply (@candidate_without_file_scheme prompt)|].
    apply getExtension_without_dot. apply (@forallb_isInfix _ _ prompt Hdot).
    eapply isInfix_trans; [apply stripWrappingCharacters_isInfix | exact Hraw]. }
  apply buildMessagePartsWith_text_only.
  unfold extractFileReferences.
  rewrite remotePass_acceptedLinks, acceptedLinks_none.
  - cbn [bindR fold_left]. rewrite tokenPass_acceptedTokens, acceptedTokens_none;
      [reflexivity|].
    intros t Ht. apply Hcand. now apply splitWhitespace_isInfix.
  - intros m Hm. apply Hcand. now apply remoteMatches_isInfix.
Qed.

Lemma buildMessageParts_of_a_plain_prompt_witness :
  buildMessageParts Demo.host (js "Summarize https://example, then (stop)!") Demo.world
  = (Ok [TextPart (js "Summarize https://example, then (stop)!")], Demo.world).
Proof.
  apply (@buildMessageParts_of_a_plain_prompt _ _ _ Demo.host
           (js "Summarize https://example, then (stop)!") Demo.world); reflexivity.
Defined.

(** ** What a load does not touch *)

(** X19: a reference that is not an HTTP URL is loaded without the
    network, and an HTTP URL without the file system: exchanging
    [fetch] and the reading of the body in the first case, [readFile]
    in the second, changes neither the result of the loader nor the
    world it leaves. *)
Theorem loadInlineDataPart_frame
        (W AI Chat : Type) (h : Host W AI Chat) (reference : jsstring) (w : W) :
  (isHttpUrl h (stripWrappingCharacters reference) = false ->
   forall fetch' arrayBuffer',
     loadInlineDataPart (withNetwork h fetch' arrayBuffer') reference w
     = loadInlineDataPart h reference w)
  /\ (isHttpUrl h (stripWrappingCharacters reference) = true ->
      forall readFile',
        loadInlineDataPart (withFileSystem h readFile') reference w
        = loadInlineDataPart h reference w).
Proof.
  split.
  - intros Hhttp fetch' arrayBuffer'.
    assert (Hhttp' : isHttpUrl (withNetwork h fetch' arrayBuffer')
                       (stripWrappingCharacters reference) = false) by exact Hhttp.
    unfold loadInlineDataPart, bind, liftR.
    change (extensionSource (withNetwork h fetch' arrayBuffer'))
      with (extensionSource h).
    destruct (extensionSource h (stripWrappingCharacters reference)) as [source|e];
      [|reflexivity].
    change (getExtension (withNetwork h fetch' arrayBuffer') source)
      with (getExtension h source).
    destruct (getExtension h source) as [ext|]; [|reflexivity].
    destruct (lookup SUPPORTED_FILE_TYPES ext) as [guess|]; [|reflexivity].
    unfold tryCatch, loadGuarded. rewrite Hhttp, Hhttp'. reflexivity.
  - intros Hhttp readFile'.
    assert (Hhttp' : isHttpUrl (withFileSystem h readFile')
                       (stripWrappingCharacters reference) = true) by exact Hhttp.
    unfold loadInlineDataPart, bind, liftR.
    change (extensionSource (withFileSystem h readFile')) with (extensionSource h).
    destruct (extensionSource h (stripWrappingCharacters reference)) as [source|e];
      [|reflexivity].
    change (getExtension (withFileSystem h readFile') source)
      with (getExtension h source).
    destruct (getExtension h source) as [ext|]; [|reflexivity].
    destruct (lookup SUPPORTED_FILE_TYPES ext) as [guess|]; [|reflexivity].
    unfold tryCatch, loadGuarded. rewrite Hhttp, Hhttp'. reflexivity.
Qed.

Lemma loadInlineDataPart_frame_witness :
  loadInlineDataPart
    (withNetwork Demo.host
       (fun _ w => (Throw (ErrorObject (js "offline")), w))
       (fun _ w => (Throw (ErrorObject (js "offline")), w)))
    (js "(report.pdf).") Demo.world
  = loadInlineDataPart Demo.host (js "(report.pdf).") Demo.world
  /\ loadInlineDataPart
       (withFileSystem Demo.host (fun _ w => (Throw (ErrorObject (js "EACCES")), w)))
       (js "http://x.com/b.png") Demo.world
     = loadInlineDataPart Demo.host (js "http://x.com/b.png") Demo.world.
Proof.
  split.
  - apply (proj1 (loadInlineDataPart_frame Demo.host (js "(report.pdf).") Demo.world)).
    reflexivity.
  - apply (proj2 (loadInlineDataPart_frame Demo.host (js "http://x.com/b.png") Demo.world)).
    reflexivity.
Defined.

(** ** The response of a batch *)

Section BatchFacts.
Context {W AI Chat : Type}.
Variable h : Host W AI Chat.
Variables (ai : AI) (chat : Chat) (model : jsstring).

(** The loop ends early only at a prompt whose body throws a value
    that [JSON.stringify] throws on. *)
Lemma Broken_unserializable (prompts : list jsstring) (w w' : W) (error : Thrown) :
  Broken h ai chat model prompts w error w' ->
  exists prompt w0,
    In prompt prompts
    /\ promptBody h ai chat model prompt w0 = (Throw (Unserializable error), w').
Proof.
  induction 1 as [prompt rest w error w1 Hrun
                 |prompt rest w outcome w1 error w2 Hrun _ IH].
  - exists prompt, w. split; [now left|].
    unfold runPrompt in Hrun.
    destruct (promptBody h ai chat model prompt w) as [[c|thrown] w0]; [discriminate|].
    destruct thrown as [message|json|raised]; try discriminate.
    cbn [mapErrorToCompletion] in Hrun. now injection Hrun as -> ->.
  - destruct IH as (prompt' & w0 & Hin & Hbody).
    exists prompt', w0. split; [now right | exact Hbody].
Qed.

Lemma outerCatch_serializable (error : Thrown) (w : W) :
  serializable error = true ->
  exists message,
    outerCatch h error w
    = (Ok (mkConnectorResponse [ErrorCompletion message] None),
       console h (ErrorInMain error) w).
Proof.
  unfold outerCatch.
  destruct error as [message|json|raised];
    [intros _; eexists; reflexivity | intros _; eexists; reflexivity | discriminate].
Qed.
End BatchFacts.

(** X20: when the client and the chat session are set up, [main]
    answers with one completion for each prompt, in the order of the
    prompts, unless the body of a prompt throws a value on which
    [JSON.stringify] throws: then what [JSON.stringify] threw goes to
    the [catch] of [main], as an exception of the setup does.  That
    [catch] logs the exception and answers with exactly one error
    completion when the exception is an [Error] or can be serialized. *)
Theorem main_answers_each_prompt_or_ends_in_its_catch
        (W AI Chat : Type) (h : Host W AI Chat)
        (model : jsstring) (prompts : list jsstring)
        (properties settings : list (jsstring * JsValue)) (w : W) :
  (forall ai chat w1,
      setup h model properties settings w = (Ok (ai, chat), w1) ->
      (exists outcomes w',
          Answered h ai chat model prompts w1 outcomes w'
          /\ length outcomes = length prompts
          /\ main h model prompts properties settings w
             = (Ok (mkConnectorResponse outcomes None), w'))
      \/ (exists error w' prompt w0,
             Broken h ai chat model prompts w1 error w'
             /\ In prompt prompts
             /\ promptBody h ai chat model prompt w0 = (Throw (Unserializable error), w')
             /\ main h model prompts properties settings w = outerCatch h error w'))
  /\ (forall error w1,
        setup h model properties settings w = (Throw error, w1) ->
        main h model prompts properties settings w = outerCatch h error w1)
  /\ (forall error w',
        serializable error = true ->
        exists message,
          outerCatch h error w'
          = (Ok (mkConnectorResponse [ErrorCompletion message] None),
             console h (ErrorInMain error) w')).
Proof.
  split; [|split].
  - intros ai chat w1 Hsetup.
    destruct (@main_run _ _ _ h model prompts properties settings w ai chat w1 Hsetup)
      as [(outcomes & w' & Hans & Hmain) | (error & w' & Hbroken & Hmain)].
    + left. exists outcomes, w'. split; [exact Hans|]. split; [|exact Hmain].
      eapply Answered_length, Hans.
    + right. destruct (Broken_unserializable Hbroken) as (prompt & w0 & Hin & Hbody).
      exists error, w', prompt, w0. repeat split; assumption.
  - intros error w1. apply main_setup_throws.
  - intros error w'. apply outerCatch_serializable.
Qed.

Lemma main_answers_each_prompt_or_ends_in_its_catch_witness :
  main Demo.host (js "gemini") [js "hello"; js "boom"] [] [] Demo.world
  = outerCatch Demo.host (ErrorObject (js "API key must be set")) Demo.world
  /\ ((exists outcomes w',
          Answered Demo.host (js "secret") (js "gemini") (js "gemini")
            [js "hello"; js "boom"] Demo.world outcomes w'
          /\ length outcomes = 2%nat
          /\ main Demo.host (js "gemini") [js "hello"; js "boom"] [] Demo.settings Demo.world
             = (Ok (mkConnectorResponse outcomes None), w'))
      \/ (exists error w' prompt w0,
             Broken Demo.host (js "secret") (js "gemini") (js "gemini")
               [js "hello"; js "boom"] Demo.world error w'
             /\ In prompt [js "hello"; js "boom"]
             /\ promptBody Demo.host (js "secret") (js "gemini") (js "gemini") prompt w0
                = (Throw (Unserializable error), w')
             /\ main Demo.host (js "gemini") [js "hello"; js "boom"] [] Demo.settings
                  Demo.world
                = outerCatch Demo.host error w')).
Proof.
  split.
  - apply (proj1 (proj2 (main_answers_each_prompt_or_ends_in_its_catch Demo.host (js "gemini")
                           [js "hello"; js "boom"] [] [] Demo.world))).
    reflexivity.
  - apply (proj1 (main_answers_each_prompt_or_ends_in_its_catch Demo.host (js "gemini")
                    [js "hello"; js "boom"] [] Demo.settings Demo.world)
             (js "secret") (js "gemini") Demo.world).
    reflexivity.
Defined.
